(** * The chain syncer of go-filecoin: a shallow embedding of
      [chain.DefaultSyncer] (collectChain, tipSetState, syncOne, widen,
      HandleNewTipset) and the properties of its specification.

    Conventions of the embedding.
    - A Go call returning [(x, err)] becomes a value of [result A]:
      [inl e] for a non-nil error, [inr x] for a nil one.
    - The pointer receiver [*DefaultSyncer] becomes explicit state passing:
      a method is a function [DefaultSyncer -> DefaultSyncer * result A].
    - The collaborators the syncer reaches through interfaces (chain store,
      fetcher, consensus protocol, state-tree engine, ancestor utilities)
      are records of operations over abstract state types.
    - Contexts, tracing spans, log lines, the [count] used only for logging
      and the mutex are not part of the model: the embedding is the
      sequential behaviour of one call holding the lock. *)

From stdpp Require Import gmap list.
From Stdlib Require Import ZArith.
From Stdlib Require String.

(** ** Errors and results *)

(** The error values of the package ([ErrChainHasBadTipSet],
    [ErrNewChainTooLong], [ErrUnexpectedStoreState]), the two errors of the
    tipset type, and the errors produced by collaborators, which are opaque
    to the syncer and carry a tag.  The message added by [errors.Wrap] is
    dropped. *)
Inductive error : Type :=
  | ErrChainHasBadTipSet
  | ErrNewChainTooLong
  | ErrUnexpectedStoreState
  | ErrEmptyTipSet
  | ErrBadTipSetAdd
  | ErrExternal (tag : nat).

#[global] Instance error_eq_dec : EqDecision error.
Proof. solve_decision. Defined.

Definition result (A : Type) : Type := (error + A)%type.

Definition rbind {A B} (r : result A) (k : A -> result B) : result B :=
  match r with
  | inl e => inl e
  | inr a => k a
  end.

(** ** Data model *)

(** A block identifier is an opaque content hash. *)
Definition Cid : Type := nat.

(** [types.SortedCidSet]: a canonical set of block identifiers.  Its
    [String()] is an injective rendering of the sorted identifiers and is
    used only as a map key and for equality, so the model uses the set
    itself as the tipset key.  [ToSlice()] is [elements], [Len()] is
    [size], [Equals] is equality. *)
Abbreviation SortedCidSet := (gset Cid).

Record Block : Type := mkBlock {
  blkCid : Cid;
  blkParents : SortedCidSet;
  blkHeight : N
}.

#[global] Instance Block_eq_dec : EqDecision Block.
Proof. solve_decision. Defined.

(** Modelled from the spec: [types.TipSet] is declared outside the source
    files at hand.  A tipset is a set of blocks indexed by identifier, all
    with the same parents and the same height; its key is the sorted set of
    its blocks' identifiers. *)
Abbreviation TipSet := (gmap Cid Block).

Module TipSet.

(** [ts.ToSortedCidSet()], also the key [ts.String()]. *)
Definition ToSortedCidSet (ts : TipSet) : SortedCidSet := dom ts.

(** [len(ts)] *)
Definition len (ts : TipSet) : nat := size ts.

(** [ts.ToSlice()]: the blocks in a fixed order. *)
Definition ToSlice (ts : TipSet) : list Block := (map_to_list ts).*2.

(** Modelled from the spec: [ts.Parents()], the parents the blocks of the
    tipset share; it fails on the empty tipset. *)
Definition Parents (ts : TipSet) : result SortedCidSet :=
  match ToSlice ts with
  | [] => inl ErrEmptyTipSet
  | b :: _ => inr (blkParents b)
  end.

(** Modelled from the spec: [ts.Height()], the height the blocks of the
    tipset share; it fails on the empty tipset. *)
Definition Height (ts : TipSet) : result N :=
  match ToSlice ts with
  | [] => inl ErrEmptyTipSet
  | b :: _ => inr (blkHeight b)
  end.

(** [ts.Clone()]: tipsets are values here. *)
Definition Clone (ts : TipSet) : TipSet := ts.

(** Modelled from the spec: [ts.AddBlock(b)] adds the block under its
    identifier; a block whose parents or height differ from those of a
    non-empty tipset is refused, which keeps the two invariants of the data
    model. *)
Definition AddBlock (ts : TipSet) (b : Block) : result TipSet :=
  match ToSlice ts with
  | [] => inr (<[blkCid b := b]> ts)
  | b0 :: _ =>
      if bool_decide (blkHeight b = blkHeight b0 ∧ blkParents b = blkParents b0)
      then inr (<[blkCid b := b]> ts)
      else inl ErrBadTipSetAdd
  end.

End TipSet.

(** [chain.TipSetAndState] *)
Record TipSetAndState : Type := mkTipSetAndState {
  tsasTipSet : TipSet;
  tsasTipSetStateRoot : Cid
}.

#[global] Instance TipSetAndState_eq_dec : EqDecision TipSetAndState.
Proof. solve_decision. Defined.

(** [SyncMode] and its two values. *)
Inductive SyncMode : Type := Syncing | CaughtUp.

#[global] Instance SyncMode_eq_dec : EqDecision SyncMode.
Proof. solve_decision. Defined.

(** [var FinalityLimit = 600] *)
Definition FinalityLimit : Z := 600.

(** Modelled from the spec: [badTipSetCache] is declared outside the source
    files at hand.  It is a set of tipset keys with [Has], [Add] and
    [AddChain], which adds the key of each tipset of a chain. *)
Module badTipSetCache.

Definition t : Type := gset SortedCidSet.

Definition Has (c : t) (tsKey : SortedCidSet) : bool := bool_decide (tsKey ∈ c).

Definition Add (c : t) (tsKey : SortedCidSet) : t := {[tsKey]} ∪ c.

Definition AddChain (c : t) (chain : list TipSet) : t :=
  foldl (fun acc ts => Add acc (TipSet.ToSortedCidSet ts)) c chain.

End badTipSetCache.

(** ** The interfaces the syncer consumes *)

(** [syncerChainReader], over an abstract store state [St].  Reads are
    functions of the state; the two writers return the new state, or an
    error and no new state. *)
Record syncerChainReader (St : Type) : Type := {
  GetBlock : St -> Cid -> result Block;
  GetHead : St -> SortedCidSet;
  GetTipSet : St -> SortedCidSet -> result TipSet;
  GetTipSetStateRoot : St -> SortedCidSet -> result Cid;
  HasTipSetAndState : St -> SortedCidSet -> bool;
  PutTipSetAndState : St -> TipSetAndState -> result St;
  SetHead : St -> TipSet -> result St;
  HasTipSetAndStatesWithParentsAndHeight : St -> SortedCidSet -> N -> bool;
  GetTipSetAndStatesByParentsAndHeight :
    St -> SortedCidSet -> N -> result (list TipSetAndState);
  HasAllBlocks : St -> list Cid -> bool
}.
Arguments GetBlock {St}.
Arguments GetHead {St}.
Arguments GetTipSet {St}.
Arguments GetTipSetStateRoot {St}.
Arguments HasTipSetAndState {St}.
Arguments PutTipSetAndState {St}.
Arguments SetHead {St}.
Arguments HasTipSetAndStatesWithParentsAndHeight {St}.
Arguments GetTipSetAndStatesByParentsAndHeight {St}.
Arguments HasAllBlocks {St}.

(** [syncFetcher] *)
Record syncFetcher : Type := {
  GetBlocks : list Cid -> result (list Block)
}.

(** The operations of [consensus.Protocol] the syncer calls.  [Cst] is the
    state of the [hamt.CborIpldStore] behind the state trees and [Tree] the
    type of loaded trees.  A [state.Tree] argument that may be the nil
    interface value is an [option Tree], [None] being nil. *)
Record Protocol (Cst Tree : Type) : Type := {
  NewValidTipSet : list Block -> result TipSet;
  RunStateTransition :
    Cst -> TipSet -> list TipSet -> Tree -> Cst * result Tree;
  IsHeavier : TipSet -> TipSet -> option Tree -> option Tree -> result bool
}.
Arguments NewValidTipSet {Cst Tree}.
Arguments RunStateTransition {Cst Tree}.
Arguments IsHeavier {Cst Tree}.

(** The state-tree engine: [state.LoadStateTree] and [Tree.Flush]. *)
Record StateEngine (Cst Tree : Type) : Type := {
  LoadStateTree : Cst -> Cid -> result Tree;
  Flush : Cst -> Tree -> Cst * result Cid
}.
Arguments LoadStateTree {Cst Tree}.
Arguments Flush {Cst Tree}.

(** The ancestor utilities of the package, which read the chain store:
    [GetRecentAncestors] with the constants [AncestorRoundsNeeded] and
    [LookbackParameter] fixed, and [CollectTipSetsOfHeightAtLeast] from
    height 0 over [IterAncestors] of a tipset. *)
Record AncestorUtil (St : Type) : Type := {
  GetRecentAncestors : St -> TipSet -> N -> result (list TipSet);
  CollectTipSetsOfHeightAtLeast0 : St -> TipSet -> result (list TipSet)
}.
Arguments GetRecentAncestors {St}.
Arguments CollectTipSetsOfHeightAtLeast0 {St}.

(** What the syncer relies on from the two writers of the chain store:
    [PutTipSetAndState] makes the pair retrievable under the key of its
    tipset and leaves the head and the other entries in place; [SetHead]
    makes the key of its tipset the head and leaves the entries in place. *)
Record StoreContract {St : Type} (store : syncerChainReader St) : Prop := {
  put_has : forall s tsas s',
    PutTipSetAndState store s tsas = inr s' ->
    HasTipSetAndState store s' (TipSet.ToSortedCidSet (tsasTipSet tsas)) = true;
  put_get : forall s tsas s',
    PutTipSetAndState store s tsas = inr s' ->
    GetTipSet store s' (TipSet.ToSortedCidSet (tsasTipSet tsas))
      = inr (tsasTipSet tsas)
    /\ GetTipSetStateRoot store s' (TipSet.ToSortedCidSet (tsasTipSet tsas))
      = inr (tsasTipSetStateRoot tsas);
  put_mono : forall s tsas s' k,
    PutTipSetAndState store s tsas = inr s' ->
    HasTipSetAndState store s k = true -> HasTipSetAndState store s' k = true;
  put_head : forall s tsas s',
    PutTipSetAndState store s tsas = inr s' -> GetHead store s' = GetHead store s;
  sethead_head : forall s ts s',
    SetHead store s ts = inr s' -> GetHead store s' = TipSet.ToSortedCidSet ts;
  sethead_has : forall s ts s' k,
    SetHead store s ts = inr s' ->
    HasTipSetAndState store s' k = HasTipSetAndState store s k;
  sethead_get : forall s ts s' k,
    SetHead store s ts = inr s' ->
    GetTipSet store s' k = GetTipSet store s k
    /\ GetTipSetStateRoot store s' k = GetTipSetStateRoot store s k
}.

(** ** The syncer *)

(** The mutable fields of [DefaultSyncer]. *)
Record DefaultSyncer (St Cst : Type) : Type := mkSyncer {
  stateStore : Cst;
  badTipSets : badTipSetCache.t;
  chainStore : St;
  syncMode : SyncMode
}.
Arguments mkSyncer {St Cst}.
Arguments stateStore {St Cst}.
Arguments badTipSets {St Cst}.
Arguments chainStore {St Cst}.
Arguments syncMode {St Cst}.

#[global] Instance DefaultSyncer_eq_dec {St Cst : Type}
  `{EqDecision St, EqDecision Cst} : EqDecision (DefaultSyncer St Cst).
Proof. solve_decision. Defined.

(** How a call of [HandleNewTipset] ends: it returns its [err], or the
    index expression [chain[0]] panics on an empty chain. *)
Inductive completion : Type :=
  | Returns (err : result unit)
  | PanicIndexOutOfRange.

#[global] Instance completion_eq_dec : EqDecision completion.
Proof. solve_decision. Defined.

Section Syncer.

Context {St Cst Tree : Type}.
Variable store : syncerChainReader St.
Variable fetcher : syncFetcher.
Variable consensus : Protocol Cst Tree.
Variable engine : StateEngine Cst Tree.
Variable util : AncestorUtil St.

Abbreviation Syncer := (DefaultSyncer St Cst).

(** A method of the syncer: the receiver after the call and what the call
    returns. *)
Definition M (A : Type) : Type := Syncer -> Syncer * result A.

Definition ret {A} (a : A) : M A := fun syncer => (syncer, inr a).

Definition bind {A B} (m : M A) (k : A -> M B) : M B :=
  fun syncer =>
    match m syncer with
    | (syncer', inl e) => (syncer', inl e)
    | (syncer', inr a) => k a syncer'
    end.

(** A call that reads the receiver and may fail. *)
Definition try {A} (f : Syncer -> result A) : M A :=
  fun syncer => (syncer, f syncer).

Notation "'let*' x ':=' m 'in' k" := (bind m (fun x => k))
  (at level 10, x name, m at level 100, k at level 200).

Definition setStateStore (cst : Cst) (syncer : Syncer) : Syncer :=
  mkSyncer cst (badTipSets syncer) (chainStore syncer) (syncMode syncer).

Definition setChainStore (s : St) (syncer : Syncer) : Syncer :=
  mkSyncer (stateStore syncer) (badTipSets syncer) s (syncMode syncer).

Definition setBadTipSets (c : badTipSetCache.t) (syncer : Syncer) : Syncer :=
  mkSyncer (stateStore syncer) c (chainStore syncer) (syncMode syncer).

(** [syncer.getBlksMaybeFromNet]: the fetcher's answer; the timeout is one of
    the ways the fetcher fails. *)
Definition getBlksMaybeFromNet (blkCids : list Cid) : result (list Block) :=
  GetBlocks fetcher blkCids.

(** The guard of the loop of [collectChain]. *)
Definition collectGuard (syncer : Syncer) (chain : list TipSet) : bool :=
  bool_decide (syncMode syncer = Syncing)
  || bool_decide (Z.of_nat (length chain) < FinalityLimit)%Z.

(** The loop of [syncer.collectChain], on its variables [chain] and
    [tipsetCids].  The loop need not end in [Syncing] mode, so the
    iterations are counted by [fuel]; [None] is a run that needs more
    iterations than [fuel].  The guard is evaluated before an iteration is
    counted. *)
Fixpoint collectLoop (fuel : nat) (chain : list TipSet)
    (tipsetCids : SortedCidSet) (syncer : Syncer)
    : option (Syncer * result (list TipSet)) :=
  if collectGuard syncer chain then
    match fuel with
    | O => None
    | S fuel' =>
        let tsKey := tipsetCids in
        if HasTipSetAndState store (chainStore syncer) tsKey then
          Some (syncer, inr chain)
        else if badTipSetCache.Has (badTipSets syncer) tsKey then
          Some (syncer, inl ErrChainHasBadTipSet)
        else
          match getBlksMaybeFromNet (elements tipsetCids) with
          | inl err => Some (syncer, inl err)
          | inr blks =>
              match NewValidTipSet consensus blks with
              | inl err =>
                  let bad1 := badTipSetCache.Add (badTipSets syncer) tsKey in
                  let bad2 := badTipSetCache.AddChain bad1 chain in
                  Some (setBadTipSets bad2 syncer, inl err)
              | inr ts =>
                  match TipSet.Parents ts with
                  | inl err => Some (syncer, inl err)
                  | inr parents => collectLoop fuel' (ts :: chain) parents syncer
                  end
              end
          end
    end
  else Some (syncer, inl ErrNewChainTooLong).

(** [syncer.collectChain] *)
Definition collectChain (fuel : nat) (tipsetCids : SortedCidSet)
    (syncer : Syncer) : option (Syncer * result (list TipSet)) :=
  collectLoop fuel [] tipsetCids syncer.

(** [syncer.tipSetState] *)
Definition tipSetState (tsKey : SortedCidSet) (syncer : Syncer) : result Tree :=
  if negb (HasTipSetAndState store (chainStore syncer) tsKey) then
    inl ErrUnexpectedStoreState
  else
    rbind (GetTipSetStateRoot store (chainStore syncer) tsKey) (fun stateCid =>
    rbind (LoadStateTree engine (stateStore syncer) stateCid) (fun st =>
    inr st)).

(** Lines 295 to 305 of [syncOne]: the state handed to [IsHeavier] for the
    head's parent.  [headParentSt] is declared without a value, so it is nil
    unless the head has parents. *)
Definition headParentState (headTipSet : TipSet) (syncer : Syncer)
    : result (option Tree) :=
  rbind (TipSet.Parents headTipSet) (fun headParentCids =>
  if negb (size headParentCids =? 0) then
    rbind (tipSetState headParentCids syncer) (fun st => inr (Some st))
  else inr None).

(** Lines 287 to 307 of [syncOne]: the four arguments of the call of
    [IsHeavier]. *)
Definition isHeavierArgs (head : SortedCidSet) (parent next : TipSet)
    (syncer : Syncer) : result (TipSet * TipSet * option Tree * option Tree) :=
  rbind (tipSetState (TipSet.ToSortedCidSet parent) syncer) (fun nextParentSt =>
  rbind (GetTipSet store (chainStore syncer) head) (fun headTipSet =>
  rbind (headParentState headTipSet syncer) (fun headParentSt =>
  inr (next, headTipSet, Some nextParentSt, headParentSt)))).

(** [st.Flush] and [consensus.RunStateTransition] write to the state store. *)
Definition runStateTransition (next : TipSet) (ancestors : list TipSet)
    (st : Tree) : M Tree :=
  fun syncer =>
    let '(cst, r) := RunStateTransition consensus (stateStore syncer) next ancestors st in
    (setStateStore cst syncer, r).

Definition flush (st : Tree) : M Cid :=
  fun syncer =>
    let '(cst, r) := Flush engine (stateStore syncer) st in
    (setStateStore cst syncer, r).

Definition putTipSetAndState (tsas : TipSetAndState) : M unit :=
  fun syncer =>
    match PutTipSetAndState store (chainStore syncer) tsas with
    | inl err => (syncer, inl err)
    | inr s => (setChainStore s syncer, inr tt)
    end.

Definition setHead (ts : TipSet) : M unit :=
  fun syncer =>
    match SetHead store (chainStore syncer) ts with
    | inl err => (syncer, inl err)
    | inr s => (setChainStore s syncer, inr tt)
    end.

(** Lines 249 to 283 of [syncOne]: the tipset is validated by the state
    transition and written to the store with its state root. *)
Definition validateAndPut (parent next : TipSet) : M Cid :=
  let* st := try (tipSetState (TipSet.ToSortedCidSet parent)) in
  let* h := try (fun _ => TipSet.Height next) in
  let* ancestors :=
    try (fun syncer => GetRecentAncestors util (chainStore syncer) parent h) in
  let* st := runStateTransition next ancestors st in
  let* root := flush st in
  let* _ := putTipSetAndState (mkTipSetAndState next root) in
  ret root.

(** Lines 312 to 329 of [syncOne]: what follows the answer of [IsHeavier].
    [IsReorg] only selects a log line. *)
Definition promote (parent next : TipSet) (heavier : bool) : M unit :=
  if heavier then
    let* newChain := try (fun syncer =>
      CollectTipSetsOfHeightAtLeast0 util (chainStore syncer) parent) in
    setHead next
  else ret tt.

(** Lines 285 to 329 of [syncOne]: the weight check and the head update. *)
Definition weighAndPromote (head : SortedCidSet) (parent next : TipSet) : M unit :=
  let* args := try (isHeavierArgs head parent next) in
  let '(a, b, aSt, bSt) := args in
  let* heavier := try (fun _ => IsHeavier consensus a b aSt bSt) in
  promote parent next heavier.

(** [syncer.syncOne] *)
Definition syncOne (parent next : TipSet) : M unit :=
  fun syncer =>
  let head := GetHead store (chainStore syncer) in
  if bool_decide (head = TipSet.ToSortedCidSet next) then ret tt syncer
  else
   (let* _ := validateAndPut parent next in
    weighAndPromote head parent next) syncer.

(** The body of the loop of [widen] that chooses the biggest candidate. *)
Definition biggestStep (max candidate : TipSetAndState) : TipSetAndState :=
  if bool_decide (TipSet.len (tsasTipSet max) < TipSet.len (tsasTipSet candidate))
  then candidate else max.

(** The choice of the biggest candidate in [widen]: the loop over
    [candidates[0:]] starting from [max = candidates[0]]. *)
Definition biggest (c0 : TipSetAndState) (candidates : list TipSetAndState)
    : TipSetAndState :=
  foldl biggestStep c0 candidates.

(** The loop of [widen] adding the blocks of a tipset to [wts]. *)
Fixpoint addBlocks (wts : TipSet) (blks : list Block) : result TipSet :=
  match blks with
  | [] => inr wts
  | blk :: blks' =>
      match TipSet.AddBlock wts blk with
      | inl err => inl err
      | inr wts' => addBlocks wts' blks'
      end
  end.

(** [syncer.widen]; [None] is the nil tipset. *)
Definition widen (ts : TipSet) (syncer : Syncer) : result (option TipSet) :=
  rbind (TipSet.Parents ts) (fun parentSet =>
  rbind (TipSet.Height ts) (fun height =>
  if negb (HasTipSetAndStatesWithParentsAndHeight store (chainStore syncer)
             parentSet height)
  then inr None
  else
    rbind (GetTipSetAndStatesByParentsAndHeight store (chainStore syncer)
             parentSet height) (fun candidates =>
    match candidates with
    | [] => inr None
    | c0 :: _ =>
        let max := biggest c0 candidates in
        rbind (addBlocks (TipSet.Clone ts) (TipSet.ToSlice (tsasTipSet max)))
          (fun wts =>
        if bool_decide (TipSet.ToSortedCidSet wts = TipSet.ToSortedCidSet ts)
           || bool_decide (TipSet.ToSortedCidSet wts
                           = TipSet.ToSortedCidSet (tsasTipSet max))
        then inr None
        else inr (Some wts))
    end))).

(** The [if i == 0] block of the loop of [HandleNewTipset]. *)
Definition widenFirst (i : nat) (parent ts : TipSet) : M unit :=
  if i =? 0 then
    let* wts := try (widen ts) in
    match wts with
    | Some wts => syncOne parent wts
    | None => ret tt
    end
  else ret tt.

Definition badAddChain (chain : list TipSet) (syncer : Syncer) : Syncer :=
  setBadTipSets (badTipSetCache.AddChain (badTipSets syncer) chain) syncer.

(** The loop [for i, ts := range chain] of [HandleNewTipset]: [rest] is
    what remains of [chain] from index [i] on. *)
Fixpoint syncChain (chain : list TipSet) (i : nat) (rest : list TipSet)
    (parent : TipSet) : M unit :=
  match rest with
  | [] => ret tt
  | ts :: rest' =>
      let* _ := widenFirst i parent ts in
      fun syncer =>
        match syncOne parent ts syncer with
        | (syncer', inl err) => (badAddChain (drop i chain) syncer', inl err)
        | (syncer', inr _) => syncChain chain (S i) rest' ts syncer'
        end
  end.

(** [syncer.HandleNewTipset] *)
Definition HandleNewTipset (fuel : nat) (tipsetCids : SortedCidSet)
    (syncer : Syncer) : option (Syncer * completion) :=
  if HasAllBlocks store (chainStore syncer) (elements tipsetCids) then
    Some (syncer, Returns (inr tt))
  else
    match collectChain fuel tipsetCids syncer with
    | None => None
    | Some (syncer1, inl err) => Some (syncer1, Returns (inl err))
    | Some (syncer1, inr chain) =>
        match chain with
        | [] => Some (syncer1, PanicIndexOutOfRange)
        | chain0 :: _ =>
            match TipSet.Parents chain0 with
            | inl err => Some (syncer1, Returns (inl err))
            | inr parentCids =>
                match GetTipSet store (chainStore syncer1) parentCids with
                | inl err => Some (syncer1, Returns (inl err))
                | inr parent =>
                    let '(syncer2, r) := syncChain chain 0 chain parent syncer1 in
                    Some (syncer2, Returns r)
                end
            end
        end
    end.

(** The variables [chain] and [tipsetCids] of the loop of [collectChain]
    after [n] iterations that went on to the next one, if the run gets that
    far.  Such iterations leave the syncer as it is. *)
Fixpoint loopState (n : nat) (tipsetCids : SortedCidSet) (syncer : Syncer)
    : option (list TipSet * SortedCidSet) :=
  match n with
  | O => Some ([], tipsetCids)
  | S n' =>
      match loopState n' tipsetCids syncer with
      | None => None
      | Some (chain, cursor) =>
          if collectGuard syncer chain
             && negb (HasTipSetAndState store (chainStore syncer) cursor)
             && negb (badTipSetCache.Has (badTipSets syncer) cursor)
          then
            match getBlksMaybeFromNet (elements cursor) with
            | inl _ => None
            | inr blks =>
                match NewValidTipSet consensus blks with
                | inl _ => None
                | inr ts =>
                    match TipSet.Parents ts with
                    | inl _ => None
                    | inr parents => Some (ts :: chain, parents)
                    end
                end
            end
          else None
      end
  end.

(** [HandleNewTipset] gets to its loop over [chain], with [parent] loaded
    and the syncer as [collectChain] left it. *)
Definition reachesLoop (fuel : nat) (tipsetCids : SortedCidSet)
    (syncer : Syncer) (chain : list TipSet) (parent : TipSet)
    (syncer1 : Syncer) : Prop :=
  HasAllBlocks store (chainStore syncer) (elements tipsetCids) = false
  /\ collectChain fuel tipsetCids syncer = Some (syncer1, inr chain)
  /\ exists chain0 parentCids,
       head chain = Some chain0
       /\ TipSet.Parents chain0 = inr parentCids
       /\ GetTipSet store (chainStore syncer1) parentCids = inr parent.

(** The value of [parent] when the loop of [HandleNewTipset] is at index
    [i]. *)
Definition parentAt (chain : list TipSet) (parent0 : TipSet) (i : nat) : TipSet :=
  match i with
  | O => parent0
  | S j => default parent0 (chain !! j)
  end.

(** The head key references a tipset of the store. *)
Definition headInStore (s : St) : Prop :=
  HasTipSetAndState store s (GetHead store s) = true.

(** One store extends another: it has the entries of the other, and its
    head is in it if the head of the other was. *)
Definition storeExt (s s' : St) : Prop :=
  (forall k, HasTipSetAndState store s k = true ->
             HasTipSetAndState store s' k = true)
  /\ (headInStore s -> headInStore s').

End Syncer.

(** The data invariant of a tipset: it indexes its blocks by their
    identifiers, and they all have the same parents and height. *)
Definition wellFormed (ts : TipSet) (parents : SortedCidSet) (h : N) : Prop :=
  map_Forall (fun c b =>
    blkCid b = c /\ blkParents b = parents /\ blkHeight b = h) ts.

#[global] Instance wellFormed_dec ts parents h : Decision (wellFormed ts parents h).
Proof. unfold wellFormed. apply _. Defined.

(** The choice of [widen] in the words of the specification: the candidate
    with the maximum block count, the first one in index order among those
    that have it. *)
Definition firstBiggest (candidates : list TipSetAndState)
    (max : TipSetAndState) : Prop :=
  exists i,
    candidates !! i = Some max
    /\ (forall j c, candidates !! j = Some c ->
          TipSet.len (tsasTipSet c) <= TipSet.len (tsasTipSet max))
    /\ (forall j c, j < i -> candidates !! j = Some c ->
          TipSet.len (tsasTipSet c) < TipSet.len (tsasTipSet max)).

Arguments ret {St Cst A} a syncer /.
Arguments try {St Cst A} f syncer /.

(** ** An in-memory chain store *)

(** Modelled from the spec: the implementation of the chain store is outside
    the source files at hand.  The store is the primary mapping from tipset
    keys to tipset-and-state pairs, the secondary index from (parent key,
    height) to the keys stored under it, in the order of their insertion,
    and the head pointer.  A block is locally resolvable when it belongs to
    a stored tipset. *)
Module MemStore.

(** Modelled from the spec: the state of the chain store, its two mappings
    and the head pointer. *)
Record t : Type := mk {
  primary : gmap SortedCidSet TipSetAndState;
  secondary : gmap (SortedCidSet * N) (list SortedCidSet);
  head : SortedCidSet
}.

#[global] Instance eq_dec : EqDecision t.
Proof. solve_decision. Defined.

Definition notFound : error := ErrExternal 404.

Definition GetHead (s : t) : SortedCidSet := head s.

Definition GetTipSet (s : t) (tsKey : SortedCidSet) : result TipSet :=
  match primary s !! tsKey with
  | Some tsas => inr (tsasTipSet tsas)
  | None => inl notFound
  end.

Definition GetTipSetStateRoot (s : t) (tsKey : SortedCidSet) : result Cid :=
  match primary s !! tsKey with
  | Some tsas => inr (tsasTipSetStateRoot tsas)
  | None => inl notFound
  end.

Definition HasTipSetAndState (s : t) (tsKey : SortedCidSet) : bool :=
  bool_decide (is_Some (primary s !! tsKey)).

Definition allBlocks (s : t) : gmap Cid Block :=
  map_fold (fun _ tsas acc => tsasTipSet tsas ∪ acc) ∅ (primary s).

Definition GetBlock (s : t) (c : Cid) : result Block :=
  match allBlocks s !! c with
  | Some b => inr b
  | None => inl notFound
  end.

Definition HasAllBlocks (s : t) (cs : list Cid) : bool :=
  forallb (fun c => bool_decide (is_Some (allBlocks s !! c))) cs.

Definition indexed (s : t) (pTsKey : SortedCidSet) (h : N) : list SortedCidSet :=
  default [] (secondary s !! (pTsKey, h)).

(** Modelled from the spec: [PutTipSetAndState] inserts the tipset, its
    state root and the secondary-index entry in one step; the head is not
    touched. *)
Definition PutTipSetAndState (s : t) (tsas : TipSetAndState) : result t :=
  rbind (TipSet.Parents (tsasTipSet tsas)) (fun parents =>
  rbind (TipSet.Height (tsasTipSet tsas)) (fun h =>
  let tsKey := TipSet.ToSortedCidSet (tsasTipSet tsas) in
  let keys := indexed s parents h in
  let keys' := if bool_decide (tsKey ∈ keys) then keys else keys ++ [tsKey] in
  inr (mk (<[tsKey := tsas]> (primary s))
          (<[(parents, h) := keys']> (secondary s))
          (head s)))).

(** Modelled from the spec: [SetHead] updates the head pointer. *)
Definition SetHead (s : t) (ts : TipSet) : result t :=
  inr (mk (primary s) (secondary s) (TipSet.ToSortedCidSet ts)).

Definition HasTipSetAndStatesWithParentsAndHeight (s : t)
    (pTsKey : SortedCidSet) (h : N) : bool :=
  negb (bool_decide (indexed s pTsKey h = [])).

Definition GetTipSetAndStatesByParentsAndHeight (s : t)
    (pTsKey : SortedCidSet) (h : N) : result (list TipSetAndState) :=
  inr (omap (fun k => primary s !! k) (indexed s pTsKey h)).

Definition reader : syncerChainReader t :=
  Build_syncerChainReader t GetBlock GetHead GetTipSet GetTipSetStateRoot
    HasTipSetAndState PutTipSetAndState SetHead
    HasTipSetAndStatesWithParentsAndHeight
    GetTipSetAndStatesByParentsAndHeight HasAllBlocks.

(** Modelled from the spec: the ancestor iterator follows [Parents] from a
    tipset until genesis; the walk is bounded by the starting height, which
    decreases along a chain. *)
Fixpoint ancestors (n : nat) (s : t) (ts : TipSet) : result (list TipSet) :=
  rbind (TipSet.Parents ts) (fun parents =>
  if bool_decide (size parents = 0) then inr [ts]
  else
    match n with
    | O => inr [ts]
    | S n' =>
        rbind (GetTipSet s parents) (fun p =>
        rbind (ancestors n' s p) (fun l => inr (l ++ [ts])))
    end).

Definition iterAncestors (s : t) (ts : TipSet) : result (list TipSet) :=
  rbind (TipSet.Height ts) (fun h => ancestors (N.to_nat h) s ts).

Definition util : AncestorUtil t := {|
  GetRecentAncestors := fun s parent _ => iterAncestors s parent;
  CollectTipSetsOfHeightAtLeast0 := iterAncestors
|}.

End MemStore.

(** ** A small concrete world *)

(** Collaborators with which the syncer can be run: a network that serves a
    fixed table of blocks, a consensus protocol that groups blocks with
    [AddBlock], refuses the tipsets that hold a block of [invalid], weighs a
    tipset by height and size and cannot weigh the blocks of [unweighable],
    and a state store that resolves the roots flushed so far. *)
Module Demo.

Definition fetcher (net : gmap Cid Block) : syncFetcher :=
  {| GetBlocks := fun cids =>
       foldr (fun c acc =>
                match net !! c with
                | Some b => rbind acc (fun l => inr (b :: l))
                | None => inl (ErrExternal 1)
                end) (inr []) cids |}.

Definition newValidTipSet (blks : list Block) : result TipSet :=
  match blks with
  | [] => inl ErrEmptyTipSet
  | _ => addBlocks ∅ blks
  end.

Definition weight (ts : TipSet) : nat :=
  match TipSet.Height ts with
  | inr h => 10 * N.to_nat h + size ts
  | inl _ => 0
  end.

Definition consensus (invalid unweighable : gset Cid)
    : Protocol (gset Cid) nat :=
  {| NewValidTipSet := newValidTipSet;
     RunStateTransition := fun cst next _ st =>
       if bool_decide (dom next ## invalid)
       then (cst, inr (100 * st + weight next))
       else (cst, inl (ErrExternal 2));
     IsHeavier := fun a b _ _ =>
       if bool_decide (dom a ## unweighable)
       then inr (weight b <? weight a)
       else inl (ErrExternal 3) |}.

Definition engine : StateEngine (gset Cid) nat :=
  {| LoadStateTree := fun cst c =>
       if bool_decide (c ∈ cst) then inr c else inl (ErrExternal 4);
     Flush := fun cst st => ({[st]} ∪ cst, inr st) |}.

Definition blk (c : Cid) (parents : list Cid) (h : N) : Block :=
  mkBlock c (list_to_set parents) h.

Definition tipset (blks : list Block) : TipSet :=
  list_to_map ((fun b => (blkCid b, b)) <$> blks).

Definition genesisBlock : Block := blk 0 [] 0.
Definition b1 : Block := blk 13 [0] 1.
Definition b2 : Block := blk 2 [0] 1.
Definition b3 : Block := blk 3 [2] 2.
Definition b4 : Block := blk 99 [3] 3.
Definition b5 : Block := blk 5 [3] 3.
Definition b6 : Block := blk 6 [3] 4.
Definition b7 : Block := blk 7 [5; 6] 5.

Definition net : gmap Cid Block :=
  tipset [genesisBlock; b1; b2; b3; b4; b5; b6; b7].

(** A network serving a line of [n] blocks over the genesis block: block
    [i] has the parent [i - 1] and the height [i]. *)
Definition lineNet (n : nat) : gmap Cid Block :=
  tipset ((fun i => blk i [i - 1] (N.of_nat i)) <$> seq 1 n).

Definition genesis : TipSet := tipset [genesisBlock].

Definition genesisStore : MemStore.t :=
  MemStore.mk {[ dom genesis := mkTipSetAndState genesis 0 ]}
              {[ (∅, 0%N) := [dom genesis] ]}
              (dom genesis).

Definition syncer0 (mode : SyncMode) : DefaultSyncer MemStore.t (gset Cid) :=
  mkSyncer {[0]} ∅ genesisStore mode.

(** The protocol that refuses block 99 and cannot weigh block 13. *)
Definition protocol : Protocol (gset Cid) nat := consensus {[99]} {[13]}.

Definition handle (fuel : nat) (cids : list Cid)
    (syncer : DefaultSyncer MemStore.t (gset Cid))
    : option (DefaultSyncer MemStore.t (gset Cid) * completion) :=
  HandleNewTipset MemStore.reader (fetcher net) protocol
    engine MemStore.util fuel (list_to_set cids) syncer.

(** The syncer as a call of [handle] leaves it. *)
Definition after (fuel : nat) (cids : list Cid)
    (syncer : DefaultSyncer MemStore.t (gset Cid))
    : DefaultSyncer MemStore.t (gset Cid) :=
  match handle fuel cids syncer with
  | Some (syncer', _) => syncer'
  | None => syncer
  end.

(** The store holds the genesis tipset and the tipset of [b1], which was
    put there by a call that could not weigh it. *)
Definition forked : DefaultSyncer MemStore.t (gset Cid) :=
  after 10 [13] (syncer0 Syncing).

End Demo.


(** ** The constructor and the ways the walk of collectChain ends *)

(** [NewDefaultSyncer]: the mutable fields of a new syncer.  The fetcher and
    the consensus protocol it is given are the collaborators the methods
    take. *)
Definition NewDefaultSyncer {St Cst : Type} (cst : Cst) (s : St)
    : DefaultSyncer St Cst :=
  mkSyncer cst ∅ s Syncing.

Section Walk.

Context {St Cst Tree : Type}.
Variable store : syncerChainReader St.
Variable fetcher : syncFetcher.
Variable consensus : Protocol Cst Tree.
Variable engine : StateEngine Cst Tree.
Variable util : AncestorUtil St.

(** Lines 186 to 196 of [collectChain]: the blocks of a key are fetched and
    grouped into a tipset. *)
Definition resolveTipSet (tipsetCids : SortedCidSet) : result TipSet :=
  rbind (getBlksMaybeFromNet fetcher (elements tipsetCids))
        (NewValidTipSet consensus).

(** The ways the loop of [collectChain] is left, by the [return] statement
    taken, when its variables are [chain] and [cursor]: the syncer after the
    call and what is returned. *)
Inductive collectEnd (syncer : DefaultSyncer St Cst) (chain : list TipSet)
    (cursor : SortedCidSet)
    : DefaultSyncer St Cst -> result (list TipSet) -> Prop :=
  | endTooLong :
      collectGuard syncer chain = false ->
      collectEnd syncer chain cursor syncer (inl ErrNewChainTooLong)
  | endInStore :
      collectGuard syncer chain = true ->
      HasTipSetAndState store (chainStore syncer) cursor = true ->
      collectEnd syncer chain cursor syncer (inr chain)
  | endBadTipSet :
      collectGuard syncer chain = true ->
      HasTipSetAndState store (chainStore syncer) cursor = false ->
      badTipSetCache.Has (badTipSets syncer) cursor = true ->
      collectEnd syncer chain cursor syncer (inl ErrChainHasBadTipSet)
  | endFetch err :
      collectGuard syncer chain = true ->
      HasTipSetAndState store (chainStore syncer) cursor = false ->
      badTipSetCache.Has (badTipSets syncer) cursor = false ->
      getBlksMaybeFromNet fetcher (elements cursor) = inl err ->
      collectEnd syncer chain cursor syncer (inl err)
  | endInvalid blks err :
      collectGuard syncer chain = true ->
      HasTipSetAndState store (chainStore syncer) cursor = false ->
      badTipSetCache.Has (badTipSets syncer) cursor = false ->
      getBlksMaybeFromNet fetcher (elements cursor) = inr blks ->
      NewValidTipSet consensus blks = inl err ->
      collectEnd syncer chain cursor
        (setBadTipSets
           (badTipSetCache.AddChain
              (badTipSetCache.Add (badTipSets syncer) cursor) chain) syncer)
        (inl err)
  | endParents blks ts err :
      collectGuard syncer chain = true ->
      HasTipSetAndState store (chainStore syncer) cursor = false ->
      badTipSetCache.Has (badTipSets syncer) cursor = false ->
      getBlksMaybeFromNet fetcher (elements cursor) = inr blks ->
      NewValidTipSet consensus blks = inr ts ->
      TipSet.Parents ts = inl err ->
      collectEnd syncer chain cursor syncer (inl err).

(** The syncers a new syncer can become: [HandleNewTipset] is the only
    exported method, so they are the results of its calls, one after the
    other and however each one ends. *)
Inductive reachable (cst : Cst) (s : St) : DefaultSyncer St Cst -> Prop :=
  | reachNew : reachable cst s (NewDefaultSyncer cst s)
  | reachCall fuel tipsetCids syncer syncer' c :
      reachable cst s syncer ->
      HandleNewTipset store fetcher consensus engine util fuel tipsetCids syncer
      = Some (syncer', c) ->
      reachable cst s syncer'.

End Walk.

(** * Node initialisation and the in-memory repo

    [node.Init] with [makePrivateKey], [newAddress] and [PrivKeyOpt], and
    [repo.MemRepo].  The objects these reach through pointers and interfaces
    live in explicit stores: the [config.Config] objects in a heap indexed
    by pointer, and the datastores, keystores and files in a world on which
    the libraries act through handles.  Locks are not part of the model. *)

(** [config.Config], declared outside the source files at hand: the field
    [Wallet.DefaultAddress], which [Init] reads and writes, and the rest. *)
Record Config (Address Rest : Type) : Type := mkConfig {
  WalletDefaultAddress : Address;
  configRest : Rest
}.
Arguments mkConfig {Address Rest}.
Arguments WalletDefaultAddress {Address Rest}.
Arguments configRest {Address Rest}.

(** The heap of [config.Config] objects; a pointer that is not in it is
    nil. *)
Abbreviation ConfigHeap Address Rest := (gmap nat (Config Address Rest)).

Module Node.

Import String.

(** The errors of the package: [ErrLittleBits], the errors of the libraries,
    which carry a tag, and [errors.Wrap]. *)
Inductive err : Type :=
  | ErrLittleBits
  | ErrLib (tag : nat)
  | Wrap (cause : err) (msg : String.string).

Definition res (A : Type) : Type := (err + A)%type.

(** How [Init] ends: it returns its error, or it dereferences a nil
    [*config.Config]. *)
Inductive outcome : Type :=
  | Return (r : res unit)
  | PanicNilConfig.

(** [InitCfg]; a nil [ci.PrivKey] is [None]. *)
Record InitCfg (PrivKey : Type) : Type := mkInitCfg {
  PeerKey : option PrivKey
}.
Arguments mkInitCfg {PrivKey}.
Arguments PeerKey {PrivKey}.

(** [InitOpt]: a function that updates the configuration it is given. *)
Definition InitOpt (PrivKey : Type) : Type := InitCfg PrivKey -> InitCfg PrivKey.

(** [PrivKeyOpt] *)
Definition PrivKeyOpt {PrivKey : Type} (k : option PrivKey) : InitOpt PrivKey :=
  fun c => mkInitCfg k.

(** The interface [repo.Repo] as [Init] uses it, over the state [R] of an
    implementation: [Config] returns a pointer and may allocate,
    [ReplaceConfig] may read the heap and act on the world, the three stores
    are handles. *)
Record Repo (R World Handle Address Rest : Type) : Type := {
  Config : R -> ConfigHeap Address Rest -> nat * ConfigHeap Address Rest;
  ReplaceConfig :
    nat -> R -> ConfigHeap Address Rest -> World -> R * World * res unit;
  Datastore : R -> Handle;
  Keystore : R -> Handle;
  WalletDatastore : R -> Handle
}.
Arguments Config {R World Handle Address Rest}.
Arguments ReplaceConfig {R World Handle Address Rest}.
Arguments Datastore {R World Handle Address Rest}.
Arguments Keystore {R World Handle Address Rest}.
Arguments WalletDatastore {R World Handle Address Rest}.

(** The library calls of [Init]: [ci.GenerateKeyPair] for RSA keys,
    [ChainManager.Genesis] on the chain manager made over a datastore,
    [Keystore.Put], [wallet.NewDSBackend] and [DSBackend.NewAddress]. *)
Record Libs (World Handle PrivKey Address Backend : Type) : Type := {
  GenerateKeyPair : Z -> res PrivKey;
  Genesis : Handle -> World -> World * res unit;
  KeystorePut : Handle -> String.string -> PrivKey -> World -> World * res unit;
  NewDSBackend : Handle -> World -> World * res Backend;
  NewAddress : Backend -> World -> World * res Address
}.
Arguments GenerateKeyPair {World Handle PrivKey Address Backend}.
Arguments Genesis {World Handle PrivKey Address Backend}.
Arguments KeystorePut {World Handle PrivKey Address Backend}.
Arguments NewDSBackend {World Handle PrivKey Address Backend}.
Arguments NewAddress {World Handle PrivKey Address Backend}.

(** What [Init] acts on: the repo, the heap of configurations and the
    world. *)
Record state (R World Address Rest : Type) : Type := mkState {
  repo : R;
  heap : ConfigHeap Address Rest;
  world : World
}.
Arguments mkState {R World Address Rest}.
Arguments repo {R World Address Rest}.
Arguments heap {R World Address Rest}.
Arguments world {R World Address Rest}.

Section Init.

Context {R World Handle PrivKey Address Rest Backend : Type}.
Context `{EqDecision Address}.
Variable r : Repo R World Handle Address Rest.
Variable libs : Libs World Handle PrivKey Address Backend.

(** [types.Address{}] *)
Variable zeroAddress : Address.

(** [makePrivateKey] *)
Definition makePrivateKey (nbits : Z) : res PrivKey :=
  if bool_decide (nbits < 1024)%Z then inl ErrLittleBits
  else
    match GenerateKeyPair libs nbits with
    | inl e => inl e
    | inr sk => inr sk
    end.

(** [newAddress] *)
Definition newAddress (st : state R World Address Rest)
    : state R World Address Rest * res Address :=
  match NewDSBackend libs (WalletDatastore r (repo st)) (world st) with
  | (w, inl e) =>
      (mkState (repo st) (heap st) w,
       inl (Wrap e "failed to set up wallet backend"%string))
  | (w, inr backend) =>
      let '(w', a) := NewAddress libs backend w in
      (mkState (repo st) (heap st) w', a)
  end.

(** The options of [Init] applied in order to a new [InitCfg]. *)
Definition applyOpts (opts : list (InitOpt PrivKey)) : InitCfg PrivKey :=
  foldl (fun cfg o => o cfg) (mkInitCfg None) opts.

(** The last block of [Init]: the default address is generated and written
    to the configuration when the configuration has none. *)
Definition initDefaultAddress (st : state R World Address Rest)
    : state R World Address Rest * outcome :=
  let '(p, h) := Config r (repo st) (heap st) in
  let st := mkState (repo st) h (world st) in
  match h !! p with
  | None => (st, PanicNilConfig)
  | Some c =>
      if bool_decide (WalletDefaultAddress c = zeroAddress) then
        match newAddress st with
        | (st, inl e) =>
            (st, Return (inl (Wrap e "failed to generate default address"%string)))
        | (st, inr addr) =>
            let '(p, h) := Config r (repo st) (heap st) in
            match h !! p with
            | None => (mkState (repo st) h (world st), PanicNilConfig)
            | Some newConfig =>
                let h := <[p := mkConfig addr (configRest newConfig)]> h in
                match ReplaceConfig r p (repo st) h (world st) with
                | (repo', w, inl e) =>
                    (mkState repo' h w,
                     Return (inl (Wrap e "failed to update config"%string)))
                | (repo', w, inr _) => (mkState repo' h w, Return (inr tt))
                end
            end
        end
      else (st, Return (inr tt))
  end.

(** [Init] *)
Definition Init (opts : list (InitOpt PrivKey))
    (st : state R World Address Rest) : state R World Address Rest * outcome :=
  let cfg := applyOpts opts in
  match Genesis libs (Datastore r (repo st)) (world st) with
  | (w, inl e) =>
      (mkState (repo st) (heap st) w,
       Return (inl (Wrap e "failed to initialize genesis"%string)))
  | (w, inr _) =>
      let st := mkState (repo st) (heap st) w in
      let key :=
        match PeerKey cfg with
        | None =>
            match makePrivateKey 2048 with
            | inl e => inl (Wrap e "failed to create nodes private key"%string)
            | inr sk => inr sk
            end
        | Some k => inr k
        end in
      match key with
      | inl e => (st, Return (inl e))
      | inr k =>
          match KeystorePut libs (Keystore r (repo st)) "self"%string k (world st) with
          | (w, inl e) =>
              (mkState (repo st) (heap st) w,
               Return (inl (Wrap e "failed to store private key"%string)))
          | (w, inr _) =>
              initDefaultAddress (mkState (repo st) (heap st) w)
          end
      end
  end.

End Init.

(** The messages [Init] wraps its errors with. *)
Definition initMessages : list String.string :=
  [ "failed to initialize genesis"%string;
    "failed to create nodes private key"%string;
    "failed to store private key"%string;
    "failed to generate default address"%string;
    "failed to update config"%string ].

End Node.

Module MemRepo.

Import String.

(** [MemRepo]: the pointer to its configuration, the handles of its three
    stores, and its version. *)
Record t (Handle : Type) : Type := mk {
  C : nat;
  D : Handle;
  Ks : Handle;
  W : Handle;
  version : N
}.
Arguments mk {Handle}.
Arguments C {Handle}.
Arguments D {Handle}.
Arguments Ks {Handle}.
Arguments W {Handle}.
Arguments version {Handle}.

Section Methods.

Context {Handle World : Type}.

(** [os.RemoveAll], whose error the repo ignores. *)
Variable RemoveAll : String.string -> World -> World.

Definition Config (mr : t Handle) : nat := C mr.

Definition ReplaceConfig (mr : t Handle) (cfg : nat) : t Handle * Node.res unit :=
  (mk cfg (D mr) (Ks mr) (W mr) (version mr), inr tt).

Definition Datastore (mr : t Handle) : Handle := D mr.

Definition Keystore (mr : t Handle) : Handle := Ks mr.

Definition WalletDatastore (mr : t Handle) : Handle := W mr.

Definition Version (mr : t Handle) : N := version mr.

Definition StagingDir (mr : t Handle) : String.string := "/tmp/sectors/staging/"%string.

Definition SealedDir (mr : t Handle) : String.string := "/tmp/sectors/sealed/"%string.

Definition CleanupSectorDirs (mr : t Handle) (w : World) : World :=
  RemoveAll (SealedDir mr) (RemoveAll (StagingDir mr) w).

Definition Close (mr : t Handle) (w : World) : World * Node.res unit :=
  (CleanupSectorDirs mr w, inr tt).

(** [MemRepo] as a [repo.Repo]. *)
Definition asRepo {Address Rest : Type}
    : Node.Repo (t Handle) World Handle Address Rest :=
  {| Node.Config := fun mr h => (Config mr, h);
     Node.ReplaceConfig := fun cfg mr _ w =>
       let '(mr', e) := ReplaceConfig mr cfg in (mr', w, e);
     Node.Datastore := Datastore;
     Node.Keystore := Keystore;
     Node.WalletDatastore := WalletDatastore |}.

End Methods.

End MemRepo.

(** Libraries with which [Init] can be run on a [MemRepo]: the world is the
    list of the calls made, latest first; an RSA key is its bit size; the
    generator fails when [genFails]; the wallet gives out address 7. *)
Module NodeDemo.

Import String.

Definition libs (genFails : bool)
    : Node.Libs (list string) nat Z nat nat :=
  {| Node.GenerateKeyPair := fun nbits =>
       if genFails then inl (Node.ErrLib 1) else inr nbits;
     Node.Genesis := fun _ w => ("Genesis"%string :: w, inr tt);
     Node.KeystorePut := fun _ name _ w => (name :: w, inr tt);
     Node.NewDSBackend := fun h w => (w, inr h);
     Node.NewAddress := fun _ w => ("NewAddress"%string :: w, inr 7) |}.

Definition memRepo : MemRepo.t nat := MemRepo.mk 0 1 2 3 1%N.

Definition repo : Node.Repo (MemRepo.t nat) (list string) nat nat unit :=
  MemRepo.asRepo.

(** A repo whose configuration has the default address [a]. *)
Definition state0 (a : nat) : Node.state (MemRepo.t nat) (list string) nat unit :=
  Node.mkState memRepo {[ 0 := mkConfig a tt ]} [].

End NodeDemo.

(** ** Properties *)

Section Properties.

#[local] Set Warnings "-clear-no-such-hyp".
#[local] Arguments collectGuard : simpl never.

Context {St Cst Tree : Type}.
Variable store : syncerChainReader St.
Variable fetcher : syncFetcher.
Variable consensus : Protocol Cst Tree.
Variable engine : StateEngine Cst Tree.
Variable util : AncestorUtil St.

Ltac unfold_sync :=
  unfold syncOne, validateAndPut, weighAndPromote, promote, bind, try, ret,
    runStateTransition, flush, putTipSetAndState, setHead in *.
Ltac unfold_syncOne := unfold syncOne.
Ltac unfold_weighAndPromote := unfold weighAndPromote.
Ltac unfold_isHeavierArgs := unfold isHeavierArgs.
Ltac unfold_headParentState := unfold headParentState.
Ltac unfold_headInStore := unfold headInStore.
Ltac unfold_headInStore_in H := unfold headInStore in H.
Ltac unfold_widen := unfold widen.
Ltac unfold_widenFirst := unfold widenFirst.
Ltac unfold_HandleNewTipset := unfold HandleNewTipset.
Ltac unfold_collectChain := unfold collectChain.

Local Abbreviation Syncer := (DefaultSyncer St Cst).
Local Abbreviation key := TipSet.ToSortedCidSet.
Local Abbreviation collectLoop := (collectLoop store fetcher consensus).
Local Abbreviation collectChain := (collectChain store fetcher consensus).
Local Abbreviation loopState := (loopState store fetcher consensus).
Local Abbreviation syncOne := (syncOne store consensus engine util).
Local Abbreviation validateAndPut := (validateAndPut store consensus engine util).
Local Abbreviation weighAndPromote := (weighAndPromote store consensus engine util).
Local Abbreviation promote := (promote store util).
Local Abbreviation isHeavierArgs := (isHeavierArgs store engine).
Local Abbreviation headParentState := (headParentState store engine).
Local Abbreviation tipSetState := (tipSetState store engine).
Local Abbreviation widen := (widen store).
Local Abbreviation widenFirst := (widenFirst store consensus engine util).
Local Abbreviation syncChain := (syncChain store consensus engine util).
Local Abbreviation reachesLoop := (reachesLoop store fetcher consensus).
Local Abbreviation HandleNewTipset :=
  (HandleNewTipset store fetcher consensus engine util).
Local Abbreviation headInStore := (headInStore store).
Local Abbreviation storeExt := (storeExt store).

(** *** The bad-tipset cache *)

Lemma AddChain_union (c : badTipSetCache.t) (chain : list TipSet) :
  badTipSetCache.AddChain c chain = list_to_set (key <$> chain) ∪ c.
Proof.
  revert c. induction chain as [|ts chain IH]; intros c.
  - unfold badTipSetCache.AddChain. simpl. set_solver.
  - unfold badTipSetCache.AddChain in *. simpl. rewrite IH.
    unfold badTipSetCache.Add. set_solver.
Qed.

Lemma Has_true (c : badTipSetCache.t) (k : SortedCidSet) :
  badTipSetCache.Has c k = true <-> k ∈ c.
Proof. unfold badTipSetCache.Has. apply bool_decide_eq_true. Qed.

(** *** The loop of collectChain *)

Lemma collectGuard_spec (syncer : Syncer) (chain : list TipSet) :
  collectGuard syncer chain = true
  <-> syncMode syncer = Syncing \/ (Z.of_nat (length chain) < FinalityLimit)%Z.
Proof.
  unfold collectGuard. rewrite orb_true_iff, !bool_decide_eq_true. tauto.
Qed.

Lemma collectGuard_nil (syncer : Syncer) : collectGuard syncer [] = true.
Proof. apply collectGuard_spec. right. done. Qed.

(** A run of the loop leaves the stores and the mode alone, only adds to the
    bad-tipset cache, and adds nothing when it returns a chain. *)
Lemma collectLoop_frame fuel chain cursor (syncer syncer' : Syncer) r :
  collectLoop fuel chain cursor syncer = Some (syncer', r) ->
  chainStore syncer' = chainStore syncer
  /\ stateStore syncer' = stateStore syncer
  /\ syncMode syncer' = syncMode syncer
  /\ badTipSets syncer ⊆ badTipSets syncer'
  /\ (forall l, r = inr l -> syncer' = syncer).
Proof.
  revert chain cursor. induction fuel as [|fuel IH]; intros chain cursor; simpl.
  - destruct (collectGuard syncer chain); [discriminate|].
    intros [= <- <-]. repeat split; auto.
  - destruct (collectGuard syncer chain); [|intros [= <- <-]; repeat split; auto].
    destruct (HasTipSetAndState store (chainStore syncer) cursor);
      [intros [= <- <-]; repeat split; auto|].
    destruct (badTipSetCache.Has (badTipSets syncer) cursor);
      [intros [= <- <-]; repeat split; auto|].
    destruct (getBlksMaybeFromNet fetcher (elements cursor)) as [e|blks];
      [intros [= <- <-]; repeat split; auto|].
    destruct (NewValidTipSet consensus blks) as [e|ts].
    + intros [= <- <-]. simpl. split; [done|]. split; [done|]. split; [done|].
      split; [|discriminate].
      rewrite AddChain_union. unfold badTipSetCache.Add. set_solver.
    + destruct (TipSet.Parents ts) as [e|parents];
        [intros [= <- <-]; repeat split; auto|].
      apply IH.
Qed.

(** The iterations counted by [loopState] are the first iterations of the
    loop. *)
Lemma loopState_collectLoop n K (syncer : Syncer) chain cursor :
  loopState n K syncer = Some (chain, cursor) ->
  length chain = n
  /\ forall fuel,
       collectLoop (n + fuel) [] K syncer = collectLoop fuel chain cursor syncer.
Proof.
  revert chain cursor. induction n as [|n IH]; intros chain cursor Hs.
  - injection Hs as <- <-. split; [done|]. intros fuel. done.
  - simpl in Hs.
    destruct (loopState n K syncer) as [[chain0 cursor0]|] eqn:Hn; [|discriminate].
    destruct (IH _ _ eq_refl) as [Hlen Hrun].
    destruct (collectGuard syncer chain0) eqn:Hg; simpl in Hs; [|discriminate].
    destruct (HasTipSetAndState store (chainStore syncer) cursor0) eqn:Hhas;
      simpl in Hs; [discriminate|].
    destruct (badTipSetCache.Has (badTipSets syncer) cursor0) eqn:Hbad;
      simpl in Hs; [discriminate|].
    destruct (getBlksMaybeFromNet fetcher (elements cursor0)) as [e|blks] eqn:Hf;
      [discriminate|].
    destruct (NewValidTipSet consensus blks) as [e|ts] eqn:Hv; [discriminate|].
    destruct (TipSet.Parents ts) as [e|parents] eqn:Hp; [discriminate|].
    injection Hs as <- <-. split; [simpl; congruence|].
    intros fuel. rewrite Nat.add_succ_comm, Hrun.
    simpl. rewrite Hg, Hhas, Hbad, Hf, Hv, Hp. done.
Qed.

(** The loop went on to a further iteration only under its guard. *)
Lemma loopState_guard n K (syncer : Syncer) chain cursor :
  loopState (S n) K syncer = Some (chain, cursor) ->
  exists ts chain', chain = ts :: chain' /\ collectGuard syncer chain' = true.
Proof.
  simpl. destruct (loopState n K syncer) as [[chain0 cursor0]|]; [|discriminate].
  destruct (collectGuard syncer chain0) eqn:Hg; simpl; [|discriminate].
  destruct (negb _ && negb _); [|discriminate].
  destruct (getBlksMaybeFromNet fetcher (elements cursor0)) as [e|blks];
    [discriminate|].
  destruct (NewValidTipSet consensus blks) as [e|ts]; [discriminate|].
  destruct (TipSet.Parents ts) as [e|parents]; [discriminate|].
  intros [= <- <-]. eauto.
Qed.

(** C2.  The walk of collectChain goes on only while the mode is Syncing or
    fewer than FinalityLimit = 600 tipsets are collected: every tipset of the
    collected chain was added under that guard, and once the guard fails the
    call returns ErrNewChainTooLong with no chain and leaves the syncer, its
    chain store included, as it was. *)
Theorem collectChain_finality_limit n K (syncer : Syncer) chain cursor fuel :
  loopState n K syncer = Some (chain, cursor) ->
  n <= fuel ->
  syncMode syncer <> Syncing ->
  (600 <= length chain) ->
  FinalityLimit = 600%Z
  /\ (forall m chain' cursor' ts,
        loopState (S m) K syncer = Some (ts :: chain', cursor') ->
        syncMode syncer = Syncing \/ length chain' < 600)
  /\ collectGuard syncer chain = false
  /\ collectChain fuel K syncer = Some (syncer, inl ErrNewChainTooLong).
Proof.
  intros Hn Hfuel Hmode Hlen.
  assert (Hg : collectGuard syncer chain = false).
  { apply not_true_is_false. rewrite collectGuard_spec.
    unfold FinalityLimit. intros [?|?]; [done|lia]. }
  split; [done|]. split; [|split; [done|]].
  - intros m chain' cursor' ts Hm.
    destruct (loopState_guard _ _ _ _ _ Hm) as (ts' & chain'' & [= <- <-] & Hg').
    apply collectGuard_spec in Hg'. unfold FinalityLimit in Hg'.
    destruct Hg' as [?|?]; [by left|right; lia].
  - destruct (loopState_collectLoop _ _ _ _ _ Hn) as [_ Hrun].
    unfold collectChain. replace fuel with (n + (fuel - n)) by lia.
    rewrite Hrun. destruct (fuel - n); simpl; rewrite Hg; done.
Qed.

(** C6.  When NewValidTipSet fails on the blocks fetched for the cursor, the
    key of the cursor and the keys of the tipsets collected so far are added
    to the bad-tipset cache, collectChain returns that error, and the chain
    store is unchanged. *)
Theorem collectChain_invalid_tipset n K (syncer : Syncer) chain cursor blks e fuel :
  loopState n K syncer = Some (chain, cursor) ->
  n < fuel ->
  collectGuard syncer chain = true ->
  HasTipSetAndState store (chainStore syncer) cursor = false ->
  badTipSetCache.Has (badTipSets syncer) cursor = false ->
  getBlksMaybeFromNet fetcher (elements cursor) = inr blks ->
  NewValidTipSet consensus blks = inl e ->
  exists syncer',
    collectChain fuel K syncer = Some (syncer', inl e)
    /\ badTipSets syncer'
       = {[cursor]} ∪ list_to_set (key <$> chain) ∪ badTipSets syncer
    /\ cursor ∈ badTipSets syncer'
    /\ (forall ts, ts ∈ chain -> key ts ∈ badTipSets syncer')
    /\ chainStore syncer' = chainStore syncer
    /\ stateStore syncer' = stateStore syncer
    /\ syncMode syncer' = syncMode syncer.
Proof.
  intros Hn Hfuel Hg Hhas Hbad Hf Hv.
  destruct (loopState_collectLoop _ _ _ _ _ Hn) as [_ Hrun].
  eexists. split.
  { unfold collectChain. replace fuel with (n + S (fuel - S n)) by lia.
    rewrite Hrun. simpl. rewrite Hg, Hhas, Hbad, Hf, Hv. reflexivity. }
  simpl. rewrite AddChain_union. unfold badTipSetCache.Add.
  split; [set_solver|]. split; [set_solver|]. split; [|done].
  intros ts Hts. apply elem_of_union_l, elem_of_list_to_set, list_elem_of_fmap.
  eauto.
Qed.

(** C9.  Past the HasAllBlocks check, a chain returned by collectChain is
    not empty, and so chain[0] is in bounds, provided that a candidate whose
    tipset and state are in the store has all its blocks there; for a
    candidate in the store whose blocks are not all there the chain is empty
    and HandleNewTipset panics at chain[0]. *)
Theorem collectChain_nonempty fuel K (syncer : Syncer) :
  HasAllBlocks store (chainStore syncer) (elements K) = false ->
  ((HasTipSetAndState store (chainStore syncer) K = true ->
    HasAllBlocks store (chainStore syncer) (elements K) = true) ->
   (forall syncer1 chain,
      collectChain fuel K syncer = Some (syncer1, inr chain) -> chain <> [])
   /\ (forall syncer1,
         HandleNewTipset fuel K syncer <> Some (syncer1, PanicIndexOutOfRange)))
  /\ (HasTipSetAndState store (chainStore syncer) K = true ->
      collectChain (S fuel) K syncer = Some (syncer, inr [])
      /\ HandleNewTipset (S fuel) K syncer = Some (syncer, PanicIndexOutOfRange)).
Proof.
  intros Hall. split.
  - intros Himp.
    assert (Hhas : HasTipSetAndState store (chainStore syncer) K = false).
    { destruct (HasTipSetAndState store (chainStore syncer) K); [|done].
      rewrite Himp in Hall; done. }
    assert (Hne : forall syncer1 chain,
      collectChain fuel K syncer = Some (syncer1, inr chain) -> chain <> []).
    { intros syncer1 chain. unfold collectChain.
      destruct fuel as [|fuel]; simpl; rewrite collectGuard_nil;
        [discriminate|]. rewrite Hhas.
      destruct (badTipSetCache.Has (badTipSets syncer) K); [discriminate|].
      destruct (getBlksMaybeFromNet fetcher (elements K)) as [e|blks];
        [discriminate|].
      destruct (NewValidTipSet consensus blks) as [e|ts]; [discriminate|].
      destruct (TipSet.Parents ts) as [e|parents]; [discriminate|].
      intros Hrun.
      assert (Hlen : forall f c cur s' l,
        collectLoop f c cur syncer = Some (s', inr l) -> length c <= length l).
      { clear. induction f as [|f IH]; intros c cur s' l; simpl.
        - destruct (collectGuard syncer c); discriminate.
        - destruct (collectGuard syncer c); [|discriminate].
          destruct (HasTipSetAndState store (chainStore syncer) cur);
            [intros [= <- <-]; done|].
          destruct (badTipSetCache.Has (badTipSets syncer) cur); [discriminate|].
          destruct (getBlksMaybeFromNet fetcher (elements cur)) as [e|blks];
            [discriminate|].
          destruct (NewValidTipSet consensus blks) as [e|ts]; [discriminate|].
          destruct (TipSet.Parents ts) as [e|parents]; [discriminate|].
          intros H. apply IH in H. simpl in H. lia. }
      apply Hlen in Hrun. destruct chain; simpl in Hrun; [lia|done]. }
    split; [done|]. intros syncer1. unfold HandleNewTipset. rewrite Hall.
    destruct (collectChain fuel K syncer) as [[syncer2 [e|chain]]|] eqn:Hc;
      [done| |done].
    destruct chain as [|chain0 rest]; [by specialize (Hne _ _ eq_refl)|].
    destruct (TipSet.Parents chain0); [done|].
    destruct (GetTipSet store (chainStore syncer2) _); [done|].
    destruct (syncChain _ _ _ _ _). done.
  - intros Hhas.
    assert (Hc : collectChain (S fuel) K syncer = Some (syncer, inr [])).
    { unfold collectChain. simpl. rewrite collectGuard_nil, Hhas. done. }
    split; [done|]. unfold HandleNewTipset. rewrite Hall, Hc. done.
Qed.

(** *** syncOne *)


(** What [validateAndPut] does to the syncer: on success the chain store
    is the result of PutTipSetAndState on the pair of [next] and the
    returned root; on failure the chain store is as before. *)
Lemma validateAndPut_store parent next (syncer syncer1 : Syncer) r :
  validateAndPut parent next syncer = (syncer1, r) ->
  badTipSets syncer1 = badTipSets syncer
  /\ syncMode syncer1 = syncMode syncer
  /\ match r with
     | inr root =>
         PutTipSetAndState store (chainStore syncer) (mkTipSetAndState next root)
         = inr (chainStore syncer1)
     | inl _ => chainStore syncer1 = chainStore syncer
     end.
Proof.
  unfold_sync. intros H.
  repeat case_match; simplify_eq/=; auto.
Qed.

(** What [weighAndPromote] does to the syncer: nothing, or SetHead on
    [next], in which case it succeeds. *)
Lemma weighAndPromote_store head parent next (syncer1 syncer' : Syncer) r :
  weighAndPromote head parent next syncer1 = (syncer', r) ->
  badTipSets syncer' = badTipSets syncer1
  /\ syncMode syncer' = syncMode syncer1
  /\ stateStore syncer' = stateStore syncer1
  /\ (chainStore syncer' = chainStore syncer1
      \/ (SetHead store (chainStore syncer1) next = inr (chainStore syncer')
          /\ r = inr tt)).
Proof.
  unfold_sync. intros H.
  repeat case_match; simplify_eq/=; repeat split; auto.
Qed.

(** The chain store after syncOne is the one before, or the one before with
    the pair of [next] put, or that one with the head set to [next]. *)
Lemma syncOne_store parent next (syncer syncer' : Syncer) r :
  syncOne parent next syncer = (syncer', r) ->
  badTipSets syncer' = badTipSets syncer
  /\ syncMode syncer' = syncMode syncer
  /\ (chainStore syncer' = chainStore syncer
      \/ exists root s1,
           PutTipSetAndState store (chainStore syncer) (mkTipSetAndState next root)
           = inr s1
           /\ (chainStore syncer' = s1
               \/ (SetHead store s1 next = inr (chainStore syncer')
                   /\ r = inr tt))).
Proof.
  unfold_syncOne. case_bool_decide as Hhead.
  { simpl. intros [= <- <-]. auto. }
  unfold bind at 1.
  destruct (validateAndPut parent next syncer) as [syncer1 [e|root]] eqn:Hv;
    apply validateAndPut_store in Hv as (Hb & Hm & Hs).
  - intros [= <- <-]. auto.
  - intros Hw. apply weighAndPromote_store in Hw as (Hb' & Hm' & _ & Hw).
    split; [congruence|]. split; [congruence|]. right.
    exists root, (chainStore syncer1). split; [done|]. done.
Qed.

Lemma storeExt_refl s : storeExt s s.
Proof. split; auto. Qed.

Lemma storeExt_trans s1 s2 s3 : storeExt s1 s2 -> storeExt s2 s3 -> storeExt s1 s3.
Proof. intros [H1 H2] [H3 H4]. split; auto. Qed.

Lemma put_storeExt (HC : StoreContract store) s tsas s' :
  PutTipSetAndState store s tsas = inr s' -> storeExt s s'.
Proof.
  intros Hput. split.
  - intros k. apply (put_mono store HC _ _ _ k Hput).
  - unfold_headInStore. rewrite (put_head store HC _ _ _ Hput).
    apply (put_mono store HC _ _ _ _ Hput).
Qed.

Lemma syncOne_storeExt (HC : StoreContract store) parent next
    (syncer syncer' : Syncer) r :
  syncOne parent next syncer = (syncer', r) ->
  storeExt (chainStore syncer) (chainStore syncer').
Proof.
  intros H. apply syncOne_store in H as (_ & _ & [->|(root & s1 & Hput & Hs)]).
  { apply storeExt_refl. }
  destruct Hs as [->|[Hset _]]; [by eapply put_storeExt|].
  eapply storeExt_trans; [by eapply put_storeExt|]. split.
  - intros k. by rewrite (sethead_has store HC _ _ _ k Hset).
  - intros _. unfold_headInStore.
    rewrite (sethead_head store HC _ _ _ Hset), (sethead_has store HC _ _ _ _ Hset).
    apply (put_has store HC _ _ _ Hput).
Qed.

(** After a successful syncOne on a store whose head is in it, the tipset is
    in the store. *)
Lemma syncOne_success_stored (HC : StoreContract store) parent next
    (syncer syncer' : Syncer) :
  headInStore (chainStore syncer) ->
  syncOne parent next syncer = (syncer', inr tt) ->
  HasTipSetAndState store (chainStore syncer') (key next) = true.
Proof.
  intros Hhead. unfold_syncOne. case_bool_decide as Heq.
  { simpl. intros [= <-]. unfold_headInStore_in Hhead.
    by rewrite Heq in Hhead. }
  unfold bind at 1.
  destruct (validateAndPut parent next syncer) as [syncer1 [e|root]] eqn:Hv;
    [discriminate|].
  apply validateAndPut_store in Hv as (_ & _ & Hput).
  intros Hw. apply weighAndPromote_store in Hw as (_ & _ & _ & [->|[Hset _]]).
  - apply (put_has store HC _ _ _ Hput).
  - rewrite (sethead_has store HC _ _ _ _ Hset).
    apply (put_has store HC _ _ _ Hput).
Qed.


(** C8.  When the head tipset has an empty parent set, the head-parent
    state handed to IsHeavier is the nil state tree: the weight check of
    syncOne is the call of IsHeavier on [next], the head tipset, the state of
    the parent of [next] and nil, followed by the head update. *)
Theorem syncOne_genesis_head_state head parent next headTipSet headParentCids
    nextParentSt (syncer1 : Syncer) :
  GetTipSet store (chainStore syncer1) head = inr headTipSet ->
  TipSet.Parents headTipSet = inr headParentCids ->
  size headParentCids = 0 ->
  tipSetState (key parent) syncer1 = inr nextParentSt ->
  headParentState headTipSet syncer1 = inr None
  /\ isHeavierArgs head parent next syncer1
     = inr (next, headTipSet, Some nextParentSt, None)
  /\ weighAndPromote head parent next syncer1
     = match IsHeavier consensus next headTipSet (Some nextParentSt) None with
       | inl e => (syncer1, inl e)
       | inr heavier => promote parent next heavier syncer1
       end.
Proof.
  intros Hget Hpar Hsize Hst.
  assert (Hh : headParentState headTipSet syncer1 = inr None).
  { unfold_headParentState; unfold rbind. rewrite Hpar, Hsize. done. }
  assert (Hargs : isHeavierArgs head parent next syncer1
                  = inr (next, headTipSet, Some nextParentSt, None)).
  { unfold_isHeavierArgs; unfold rbind. rewrite Hst, Hget, Hh. done. }
  split; [done|]. split; [done|].
  unfold_weighAndPromote; unfold bind, try. rewrite Hargs.
  destruct (IsHeavier consensus next headTipSet (Some nextParentSt) None); done.
Qed.

(** *** The loop of HandleNewTipset *)

Lemma widenFirst_later i parent ts (syncer : Syncer) :
  i <> 0 -> widenFirst i parent ts syncer = (syncer, inr tt).
Proof. intros Hi. unfold_widenFirst. destruct i; [done|]. done. Qed.

Lemma widenFirst_frame i parent ts (syncer syncer' : Syncer) r :
  widenFirst i parent ts syncer = (syncer', r) ->
  badTipSets syncer' = badTipSets syncer
  /\ syncMode syncer' = syncMode syncer
  /\ (StoreContract store -> storeExt (chainStore syncer) (chainStore syncer')).
Proof.
  unfold_widenFirst. destruct (i =? 0).
  - unfold bind, try. destruct (widen ts syncer) as [e|[wts|]].
    + intros [= <- <-]. auto using storeExt_refl.
    + intros H. pose proof (syncOne_store _ _ _ _ _ H) as (? & ? & _).
      split; [done|]. split; [done|]. intros HC. by eapply syncOne_storeExt.
    + intros [= <- <-]. auto using storeExt_refl.
  - intros [= <- <-]. auto using storeExt_refl.
Qed.

Lemma syncChain_cons chain i ts rest parent (syncer : Syncer) :
  syncChain chain i (ts :: rest) parent syncer
  = match widenFirst i parent ts syncer with
    | (syncer1, inl e) => (syncer1, inl e)
    | (syncer1, inr _) =>
        match syncOne parent ts syncer1 with
        | (syncer2, inl e) => (badAddChain (drop i chain) syncer2, inl e)
        | (syncer2, inr _) => syncChain chain (S i) rest ts syncer2
        end
    end.
Proof. reflexivity. Qed.

(** A run of the loop extends the store and only adds to the bad-tipset
    cache; a successful run adds nothing to it. *)
Lemma syncChain_frame chain rest : forall i parent (syncer syncer' : Syncer) r,
  syncChain chain i rest parent syncer = (syncer', r) ->
  badTipSets syncer ⊆ badTipSets syncer'
  /\ (r = inr tt -> badTipSets syncer' = badTipSets syncer)
  /\ syncMode syncer' = syncMode syncer
  /\ (StoreContract store -> storeExt (chainStore syncer) (chainStore syncer')).
Proof.
  induction rest as [|ts rest IH]; intros i parent syncer syncer' r.
  { simpl. intros [= <- <-]. auto using storeExt_refl. }
  rewrite syncChain_cons.
  destruct (widenFirst i parent ts syncer) as [syncer1 [e|u]] eqn:Hw;
    apply widenFirst_frame in Hw as (Hb1 & Hm1 & Hs1).
  { intros [= <- <-]. rewrite Hb1. split; [done|]. split; [done|]. split; done. }
  destruct (syncOne parent ts syncer1) as [syncer2 [e|u']] eqn:Ho;
    pose proof (syncOne_store _ _ _ _ _ Ho) as (Hb2 & Hm2 & _).
  - intros [= <- <-]. simpl. rewrite AddChain_union, Hb2, Hb1.
    split; [set_solver|]. split; [done|]. split; [congruence|].
    intros HC. eapply storeExt_trans; [by apply Hs1|]. by eapply syncOne_storeExt.
  - intros H. apply IH in H as (Hb3 & Hb3' & Hm3 & Hs3).
    rewrite Hb2, Hb1 in Hb3, Hb3'.
    split; [done|]. split; [done|]. split; [congruence|].
    intros HC. eapply storeExt_trans; [by apply Hs1|].
    eapply storeExt_trans; [by eapply syncOne_storeExt|]. by apply Hs3.
Qed.

(** After a successful run of the loop on a store whose head is in it, the
    tipsets the loop went through are in the store. *)
Lemma syncChain_success_stored (HC : StoreContract store) chain rest :
  forall i parent (syncer syncer' : Syncer),
  headInStore (chainStore syncer) ->
  syncChain chain i rest parent syncer = (syncer', inr tt) ->
  forall ts, ts ∈ rest ->
    HasTipSetAndState store (chainStore syncer') (key ts) = true.
Proof.
  induction rest as [|ts0 rest IH]; intros i parent syncer syncer' Hhead Hrun ts Hts.
  { by apply elem_of_nil in Hts. }
  rewrite syncChain_cons in Hrun.
  destruct (widenFirst i parent ts0 syncer) as [syncer1 [e|u]] eqn:Hw;
    [discriminate|].
  apply widenFirst_frame in Hw as (_ & _ & Hs1). specialize (Hs1 HC).
  destruct (syncOne parent ts0 syncer1) as [syncer2 [e|[]]] eqn:Ho;
    [discriminate|].
  pose proof (syncOne_storeExt HC _ _ _ _ _ Ho) as Hs2.
  assert (Hhead2 : headInStore (chainStore syncer2)).
  { apply Hs2, Hs1, Hhead. }
  apply elem_of_cons in Hts as [->|Hts].
  - pose proof (syncChain_frame _ _ _ _ _ _ _ Hrun) as (_ & _ & _ & Hs3).
    apply (Hs3 HC). eapply syncOne_success_stored; [done| |done].
    apply Hs1, Hhead.
  - eapply IH; [|done|done]. done.
Qed.

(** A run of the loop over a prefix that succeeds is the beginning of the
    run over the whole list. *)
Lemma syncChain_app chain pre post : forall i parent (syncer syncer_i : Syncer),
  syncChain chain i pre parent syncer = (syncer_i, inr tt) ->
  syncChain chain i (pre ++ post) parent syncer
  = syncChain chain (i + length pre) post (default parent (last pre)) syncer_i.
Proof.
  induction pre as [|ts pre IH]; intros i parent syncer syncer_i.
  { simpl. intros [= <-]. by rewrite Nat.add_0_r. }
  rewrite <- app_comm_cons, !syncChain_cons.
  destruct (widenFirst i parent ts syncer) as [syncer1 [e|u]]; [discriminate|].
  destruct (syncOne parent ts syncer1) as [syncer2 [e|u']]; [discriminate|].
  intros H. rewrite (IH _ _ _ _ H). simpl length.
  rewrite Nat.add_succ_r, last_cons. simpl. by destruct (last pre).
Qed.

Lemma parentAt_take (chain : list TipSet) parent0 i ts :
  chain !! i = Some ts ->
  default parent0 (last (take i chain)) = parentAt chain parent0 i.
Proof.
  intros Hi. destruct i as [|j]; [done|]. simpl.
  assert (is_Some (chain !! j)) as [x Hx].
  { apply lookup_lt_is_Some. apply lookup_lt_Some in Hi. lia. }
  rewrite (take_S_r _ _ _ Hx), last_snoc, Hx. done.
Qed.

(** What the loop of HandleNewTipset does when syncOne fails at index [i]
    after the earlier iterations succeeded. *)
Lemma syncChain_fails_at chain parent0 i ts
    (syncer1 syncer_i syncer_w syncer_f : Syncer) e :
  chain !! i = Some ts ->
  syncChain chain 0 (take i chain) parent0 syncer1 = (syncer_i, inr tt) ->
  widenFirst i (parentAt chain parent0 i) ts syncer_i = (syncer_w, inr tt) ->
  syncOne (parentAt chain parent0 i) ts syncer_w = (syncer_f, inl e) ->
  syncChain chain 0 chain parent0 syncer1
  = (badAddChain (drop i chain) syncer_f, inl e).
Proof.
  intros Hi Hpre Hw Ho.
  rewrite <- (take_drop i chain) at 2.
  rewrite (syncChain_app _ _ _ _ _ _ _ Hpre).
  rewrite (parentAt_take _ _ _ _ Hi), (drop_S _ _ _ Hi), syncChain_cons.
  rewrite <- (drop_S _ _ _ Hi).
  rewrite length_take_le by (apply lookup_lt_Some in Hi; lia).
  simpl. rewrite Hw, Ho. done.
Qed.

Lemma reachesLoop_run fuel K (syncer : Syncer) chain parent syncer1 :
  reachesLoop fuel K syncer chain parent syncer1 ->
  syncer1 = syncer
  /\ HandleNewTipset fuel K syncer
     = Some (let '(syncer2, r) := syncChain chain 0 chain parent syncer1 in
             (syncer2, Returns r)).
Proof.
  intros (Hall & Hc & chain0 & parentCids & Hhd & Hpar & Hget).
  split.
  { apply collectLoop_frame in Hc as (_ & _ & _ & _ & H). eauto. }
  unfold_HandleNewTipset. rewrite Hall, Hc.
  destruct chain as [|c0 rest]; [discriminate|]. injection Hhd as ->.
  rewrite Hpar, Hget. by destruct (syncChain _ _ _ _ _).
Qed.

(** C3.  The head key always references a tipset of the store: syncOne
    changes the store only by PutTipSetAndState of [next] with its state
    root, followed or not by SetHead of [next] on the store that results, so
    that SetHead is only applied to a tipset put by the same call; and
    syncOne, collectChain and HandleNewTipset each leave the head in the
    store if it was there. *)
Theorem head_always_in_store (HC : StoreContract store) (syncer : Syncer) :
  headInStore (chainStore syncer) ->
  (forall parent next syncer' r,
     syncOne parent next syncer = (syncer', r) ->
     (chainStore syncer' = chainStore syncer
      \/ exists root s1,
           PutTipSetAndState store (chainStore syncer) (mkTipSetAndState next root)
           = inr s1
           /\ HasTipSetAndState store s1 (key next) = true
           /\ (chainStore syncer' = s1
               \/ (SetHead store s1 next = inr (chainStore syncer')
                   /\ GetHead store (chainStore syncer') = key next)))
     /\ headInStore (chainStore syncer'))
  /\ (forall fuel K syncer' r,
        collectChain fuel K syncer = Some (syncer', r) ->
        chainStore syncer' = chainStore syncer
        /\ headInStore (chainStore syncer'))
  /\ (forall fuel K syncer' c,
        HandleNewTipset fuel K syncer = Some (syncer', c) ->
        headInStore (chainStore syncer')).
Proof.
  intros Hhead. split; [|split].
  - intros parent next syncer' r Hrun. split.
    + apply syncOne_store in Hrun as (_ & _ & [->|(root & s1 & Hput & Hs)]);
        [by left|]. right. exists root, s1. split; [done|].
      split; [apply (put_has store HC _ _ _ Hput)|].
      destruct Hs as [->|[Hset _]]; [by left|]. right. split; [done|].
      apply (sethead_head store HC _ _ _ Hset).
    + by apply (syncOne_storeExt HC _ _ _ _ _ Hrun).
  - intros fuel K syncer' r Hc.
    apply collectLoop_frame in Hc as (-> & _). done.
  - intros fuel K syncer' c. unfold_HandleNewTipset.
    destruct (HasAllBlocks store (chainStore syncer) (elements K));
      [by intros [= <- <-]|].
    destruct (collectChain fuel K syncer) as [[syncer1 [e|chain]]|] eqn:Hc;
      [| |done]; apply collectLoop_frame in Hc as (Hs & _).
    { intros [= <- <-]. by rewrite Hs. }
    destruct chain as [|chain0 rest]; [intros [= <- <-]; by rewrite Hs|].
    destruct (TipSet.Parents chain0); [intros [= <- <-]; by rewrite Hs|].
    destruct (GetTipSet store (chainStore syncer1) _);
      [intros [= <- <-]; by rewrite Hs|].
    destruct (syncChain _ _ _ _ _) as [syncer2 r] eqn:Hrun.
    intros [= <- <-].
    apply syncChain_frame in Hrun as (_ & _ & _ & Hext).
    apply (Hext HC). by rewrite Hs.
Qed.

(** C5.  When syncOne fails on chain[i] in the loop of HandleNewTipset,
    the keys of chain[i] and of the later tipsets of the chain are added to
    the bad-tipset cache, HandleNewTipset returns that error, and what the
    earlier iterations put in the store is still there: the store has every
    entry it had when iteration [i] began and when its widening was done
    and, the head being in the store at the start, every tipset chain[j]
    with j < i. *)
Theorem syncOne_failure_marks_descendants (HC : StoreContract store)
    fuel K (syncer : Syncer) chain parent0 syncer1 i ts
    syncer_i syncer_w syncer_f e :
  reachesLoop fuel K syncer chain parent0 syncer1 ->
  chain !! i = Some ts ->
  syncChain chain 0 (take i chain) parent0 syncer1 = (syncer_i, inr tt) ->
  widenFirst i (parentAt chain parent0 i) ts syncer_i = (syncer_w, inr tt) ->
  syncOne (parentAt chain parent0 i) ts syncer_w = (syncer_f, inl e) ->
  exists final,
    HandleNewTipset fuel K syncer = Some (final, Returns (inl e))
    /\ badTipSets final
       = list_to_set (key <$> drop i chain) ∪ badTipSets syncer
    /\ (forall j tsj, i <= j -> chain !! j = Some tsj ->
                      key tsj ∈ badTipSets final)
    /\ (forall k, HasTipSetAndState store (chainStore syncer_i) k = true
                  \/ HasTipSetAndState store (chainStore syncer_w) k = true ->
                  HasTipSetAndState store (chainStore final) k = true)
    /\ (headInStore (chainStore syncer) ->
        forall j tsj, j < i -> chain !! j = Some tsj ->
          HasTipSetAndState store (chainStore final) (key tsj) = true).
Proof.
  intros Hreach Hi Hpre Hw Ho.
  destruct (reachesLoop_run _ _ _ _ _ _ Hreach) as [-> Hrun].
  rewrite (syncChain_fails_at _ _ _ _ _ _ _ _ _ Hi Hpre Hw Ho) in Hrun.
  exists (badAddChain (drop i chain) syncer_f). split; [done|].
  pose proof (syncChain_frame _ _ _ _ _ _ _ Hpre) as (_ & Hb1 & _ & Hs1).
  pose proof (widenFirst_frame _ _ _ _ _ _ Hw) as (Hb2 & _ & Hs2).
  pose proof (syncOne_store _ _ _ _ _ Ho) as (Hb3 & _ & _).
  pose proof (syncOne_storeExt HC _ _ _ _ _ Ho) as Hs3.
  assert (Hbad : badTipSets (badAddChain (drop i chain) syncer_f)
                 = list_to_set (key <$> drop i chain) ∪ badTipSets syncer).
  { simpl. rewrite AddChain_union, Hb3, Hb2, Hb1; done. }
  split; [done|]. split; [|split].
  - intros j tsj Hij Hj. rewrite Hbad.
    apply elem_of_union_l, elem_of_list_to_set, list_elem_of_fmap.
    exists tsj. split; [done|]. apply list_elem_of_lookup.
    exists (j - i). rewrite lookup_drop. by replace (i + (j - i)) with j by lia.
  - intros k [Hk|Hk]; simpl; [apply Hs3, (Hs2 HC), Hk|apply Hs3, Hk].
  - intros Hhead j tsj Hji Hj. simpl. apply Hs3, (Hs2 HC).
    eapply (syncChain_success_stored HC); [exact Hhead|exact Hpre|].
    apply elem_of_take. eauto.
Qed.

(** Where the loop of HandleNewTipset adds to the bad-tipset cache: only
    where syncOne fails on a tipset of the chain. *)
Lemma syncChain_bad_cases chain rest : forall i parent (syncer syncer' : Syncer) r,
  rest = drop i chain ->
  syncChain chain i rest parent syncer = (syncer', r) ->
  badTipSets syncer' = badTipSets syncer
  \/ exists j tsj parentj syncer_w syncer_f e,
       chain !! j = Some tsj
       /\ syncOne parentj tsj syncer_w = (syncer_f, inl e)
       /\ r = inl e
       /\ badTipSets syncer'
          = list_to_set (key <$> drop j chain) ∪ badTipSets syncer.
Proof.
  induction rest as [|ts rest IH]; intros i parent syncer syncer' r Hrest.
  { simpl. intros [= <- <-]. by left. }
  rewrite syncChain_cons.
  destruct (widenFirst i parent ts syncer) as [syncer1 [e|u]] eqn:Hw;
    apply widenFirst_frame in Hw as (Hb1 & _ & _).
  { intros [= <- <-]. by left. }
  assert (Hi : chain !! i = Some ts).
  { rewrite <- (Nat.add_0_r i), <- lookup_drop, <- Hrest. done. }
  destruct (syncOne parent ts syncer1) as [syncer2 [e|u']] eqn:Ho;
    pose proof (syncOne_store _ _ _ _ _ Ho) as (Hb2 & _ & _).
  - intros [= <- <-]. right. exists i, ts, parent, syncer1, syncer2, e.
    repeat (split; [done|]). simpl. by rewrite AddChain_union, Hb2, Hb1.
  - intros H. apply IH in H.
    + rewrite Hb2, Hb1 in H. done.
    + rewrite (drop_S _ _ _ Hi) in Hrest. by injection Hrest.
Qed.

(** C10.  When syncOne fails on the widened tipset made for chain[0],
    HandleNewTipset returns that error at once and the bad-tipset cache is
    as it was; the loop of HandleNewTipset changes the bad-tipset cache only
    where syncOne fails on a tipset of the collected chain, and then by the
    keys of the chain from that tipset on. *)
Theorem widened_failure_marks_nothing :
  (forall fuel K (syncer : Syncer) chain parent syncer1 ts wts syncer2 e,
     reachesLoop fuel K syncer chain parent syncer1 ->
     head chain = Some ts ->
     widen ts syncer1 = inr (Some wts) ->
     syncOne parent wts syncer1 = (syncer2, inl e) ->
     HandleNewTipset fuel K syncer = Some (syncer2, Returns (inl e))
     /\ badTipSets syncer2 = badTipSets syncer)
  /\ (forall chain parent (syncer1 syncer' : Syncer) r,
        syncChain chain 0 chain parent syncer1 = (syncer', r) ->
        badTipSets syncer' = badTipSets syncer1
        \/ exists j tsj parentj syncer_w syncer_f e,
             chain !! j = Some tsj
             /\ syncOne parentj tsj syncer_w = (syncer_f, inl e)
             /\ r = inl e
             /\ badTipSets syncer'
                = list_to_set (key <$> drop j chain) ∪ badTipSets syncer1).
Proof.
  split.
  - intros fuel K syncer chain parent syncer1 ts wts syncer2 e Hreach Hhd Hwd Ho.
    destruct (reachesLoop_run _ _ _ _ _ _ Hreach) as [-> Hrun].
    destruct chain as [|c0 rest]; [discriminate|]. injection Hhd as ->.
    rewrite syncChain_cons in Hrun.
    assert (Hw : widenFirst 0 parent ts syncer = (syncer2, inl e)).
    { unfold_widenFirst. simpl. unfold bind, try. rewrite Hwd. done. }
    rewrite Hw in Hrun. split; [done|].
    by apply syncOne_store in Ho as (? & _).
  - intros chain parent syncer1 syncer' r Hrun.
    by eapply syncChain_bad_cases in Hrun.
Qed.

(** *** widen *)

Lemma ToSlice_elem (ts : TipSet) b :
  b ∈ TipSet.ToSlice ts -> exists c, ts !! c = Some b.
Proof.
  unfold TipSet.ToSlice. intros Hb.
  apply list_elem_of_fmap in Hb as ([c b'] & -> & Hb).
  exists c. by apply elem_of_map_to_list.
Qed.

Lemma ToSlice_nil (ts : TipSet) : TipSet.ToSlice ts = [] -> ts = ∅.
Proof.
  unfold TipSet.ToSlice. intros H. apply fmap_nil_inv in H.
  by apply map_to_list_empty_iff.
Qed.

Lemma wellFormed_Parents_Height (ts : TipSet) parents h :
  wellFormed ts parents h -> ts <> ∅ ->
  TipSet.Parents ts = inr parents /\ TipSet.Height ts = inr h.
Proof.
  intros Hwf Hne. unfold TipSet.Parents, TipSet.Height.
  destruct (TipSet.ToSlice ts) as [|b l] eqn:Hs.
  { by apply ToSlice_nil in Hs. }
  destruct (ToSlice_elem ts b) as [c Hc]; [rewrite Hs; left|].
  destruct (Hwf _ _ Hc) as (_ & -> & ->). done.
Qed.

Lemma wellFormed_insert (ts : TipSet) parents h b :
  wellFormed ts parents h -> blkParents b = parents -> blkHeight b = h ->
  wellFormed (<[blkCid b := b]> ts) parents h.
Proof.
  intros Hwf Hp Hh c b'. rewrite lookup_insert.
  case_decide as Hc; [|apply Hwf]. intros [= <-]. done.
Qed.

Lemma AddBlock_wellFormed (ts : TipSet) parents h b :
  wellFormed ts parents h -> blkParents b = parents -> blkHeight b = h ->
  TipSet.AddBlock ts b = inr (<[blkCid b := b]> ts).
Proof.
  intros Hwf Hp Hh. unfold TipSet.AddBlock.
  destruct (TipSet.ToSlice ts) as [|b0 l] eqn:Hs; [done|].
  destruct (ToSlice_elem ts b0) as [c Hc]; [rewrite Hs; left|].
  destruct (Hwf _ _ Hc) as (_ & Hp0 & Hh0).
  rewrite bool_decide_eq_true_2; [done|]. split; congruence.
Qed.

(** On well-formed tipsets the loop of [widen] inserts the blocks one after
    the other. *)
Lemma addBlocks_wellFormed parents h blks : forall wts : TipSet,
  wellFormed wts parents h ->
  Forall (fun b => blkParents b = parents /\ blkHeight b = h) blks ->
  addBlocks wts blks = inr (foldl (fun acc b => <[blkCid b := b]> acc) wts blks).
Proof.
  induction blks as [|b blks IH]; intros wts Hwf Hall; [done|].
  apply Forall_cons in Hall as [[Hp Hh] Hall]. simpl.
  rewrite (AddBlock_wellFormed _ _ _ _ Hwf Hp Hh).
  apply IH; [|done]. by apply wellFormed_insert.
Qed.

Lemma foldl_insert_union (l : list (Cid * Block)) : forall wts : TipSet,
  NoDup l.*1 ->
  (forall c b, (c, b) ∈ l -> blkCid b = c) ->
  foldl (fun acc b => <[blkCid b := b]> acc) wts l.*2
  = (list_to_map l : TipSet) ∪ wts.
Proof.
  induction l as [|[c b] l IH]; intros wts Hnd Hkey; csimpl in *.
  { by rewrite (left_id_L ∅ (∪)). }
  apply NoDup_cons in Hnd as [Hc Hnd].
  rewrite (Hkey c b) by left. rewrite IH; [|done|intros; apply Hkey; by right].
  rewrite <- insert_union_l. symmetry. apply insert_union_r.
  by apply not_elem_of_list_to_map_1.
Qed.

(** The tipset [widen] builds from a well-formed [ts] and a well-formed
    tipset [m] of the store is their union. *)
Lemma addBlocks_union (ts m : TipSet) parents h :
  wellFormed ts parents h -> wellFormed m parents h ->
  addBlocks (TipSet.Clone ts) (TipSet.ToSlice m) = inr (m ∪ ts).
Proof.
  intros Hts Hm. rewrite (addBlocks_wellFormed parents h); [|done|].
  - unfold TipSet.ToSlice, TipSet.Clone. rewrite foldl_insert_union.
    + by rewrite list_to_map_to_list.
    + apply NoDup_fst_map_to_list.
    + intros c b Hcb. apply elem_of_map_to_list in Hcb.
      by destruct (Hm _ _ Hcb).
  - apply Forall_forall. intros b Hb. apply ToSlice_elem in Hb as [c Hc].
    by destruct (Hm _ _ Hc) as (_ & ? & ?).
Qed.

Lemma biggest_inv rest : forall pre max p,
  pre !! p = Some max ->
  (forall j c, pre !! j = Some c ->
     TipSet.len (tsasTipSet c) <= TipSet.len (tsasTipSet max)) ->
  (forall j c, j < p -> pre !! j = Some c ->
     TipSet.len (tsasTipSet c) < TipSet.len (tsasTipSet max)) ->
  firstBiggest (pre ++ rest) (foldl biggestStep max rest).
Proof.
  induction rest as [|x rest IH]; intros pre max p Hp Hle Hlt.
  { simpl. rewrite app_nil_r. exists p. auto. }
  simpl. rewrite cons_middle, app_assoc. unfold biggestStep at 2.
  case_bool_decide as Hx.
  - apply (IH _ _ (length pre)).
    + by rewrite lookup_app_r, Nat.sub_diag.
    + intros j c Hj. apply lookup_app_Some in Hj as [Hj|[_ Hj]].
      * specialize (Hle _ _ Hj). lia.
      * apply list_lookup_singleton_Some in Hj as [_ <-]. lia.
    + intros j c Hjp Hj. rewrite lookup_app_l in Hj by done.
      specialize (Hle _ _ Hj). lia.
  - apply (IH _ _ p).
    + by apply lookup_app_l_Some.
    + intros j c Hj. apply lookup_app_Some in Hj as [Hj|[_ Hj]].
      * by eapply Hle.
      * apply list_lookup_singleton_Some in Hj as [_ <-]. lia.
    + intros j c Hjp Hj. apply lookup_app_Some in Hj as [Hj|[Hge Hj]].
      * by eapply Hlt.
      * apply lookup_lt_Some in Hp. lia.
Qed.

(** The loop of [widen] chooses as the specification says. *)
Lemma biggest_firstBiggest c0 cs : firstBiggest (c0 :: cs) (biggest c0 (c0 :: cs)).
Proof.
  unfold biggest. simpl. unfold biggestStep at 2.
  rewrite bool_decide_eq_false_2 by lia.
  apply (biggest_inv cs [c0] c0 0); [done| |intros; lia].
  intros j c Hj. apply list_lookup_singleton_Some in Hj as [_ <-]. lia.
Qed.

(** C4.  widen looks up the stored tipsets with the parents and height of
    [ts]; with none it returns none; otherwise it takes the one with the most
    blocks, the first such in index order, and returns the union of [ts]
    with it, or none when the key of the union is that of [ts] or of the
    chosen tipset; and the loop of HandleNewTipset widens at index 0 only. *)
Theorem widen_spec ts parents h (syncer : Syncer) :
  TipSet.Parents ts = inr parents ->
  TipSet.Height ts = inr h ->
  (HasTipSetAndStatesWithParentsAndHeight store (chainStore syncer) parents h
   = false -> widen ts syncer = inr None)
  /\ (forall candidates,
        HasTipSetAndStatesWithParentsAndHeight store (chainStore syncer) parents h
        = true ->
        GetTipSetAndStatesByParentsAndHeight store (chainStore syncer) parents h
        = inr candidates ->
        (candidates = [] -> widen ts syncer = inr None)
        /\ (forall c0 cs, candidates = c0 :: cs ->
              let max := biggest c0 candidates in
              firstBiggest candidates max
              /\ (wellFormed ts parents h ->
                  wellFormed (tsasTipSet max) parents h ->
                  let wts := tsasTipSet max ∪ ts in
                  key wts = key ts ∪ key (tsasTipSet max)
                  /\ widen ts syncer
                     = inr (if bool_decide (key wts = key ts
                                            \/ key wts = key (tsasTipSet max))
                            then None else Some wts))))
  /\ (forall i parent, i <> 0 ->
        widenFirst i parent ts syncer = (syncer, inr tt)).
Proof.
  intros Hpar Hh. split; [|split].
  - intros Hno. unfold_widen; unfold rbind. rewrite Hpar, Hh, Hno. done.
  - intros candidates Hyes Hget. split.
    + intros ->. unfold_widen; unfold rbind. rewrite Hpar, Hh, Hyes, Hget. done.
    + intros c0 cs -> max. split; [apply biggest_firstBiggest|].
      intros Hts Hmax wts. split.
      { unfold TipSet.ToSortedCidSet, wts. rewrite dom_union_L. set_solver. }
      unfold_widen; unfold rbind. rewrite Hpar, Hh, Hyes, Hget. simpl negb.
      cbv iota. fold max. rewrite (addBlocks_union _ _ _ _ Hts Hmax). fold wts.
      rewrite <- bool_decide_or. by case_bool_decide.
  - intros i parent Hi. by apply widenFirst_later.
Qed.

(** *** Calling HandleNewTipset again *)


End Properties.

(** ** The in-memory store meets the contract *)

Lemma MemStore_put_inv s tsas s' :
  MemStore.PutTipSetAndState s tsas = inr s' ->
  MemStore.primary s'
  = <[TipSet.ToSortedCidSet (tsasTipSet tsas) := tsas]> (MemStore.primary s)
  /\ MemStore.head s' = MemStore.head s.
Proof.
  unfold MemStore.PutTipSetAndState, rbind.
  destruct (TipSet.Parents (tsasTipSet tsas)); [done|].
  destruct (TipSet.Height (tsasTipSet tsas)); [done|].
  by intros [= <-].
Qed.

Lemma MemStore_contract : StoreContract MemStore.reader.
Proof.
  constructor; simpl.
  - intros s tsas s' [Hp _]%MemStore_put_inv.
    unfold MemStore.HasTipSetAndState. rewrite Hp, lookup_insert_eq.
    by apply bool_decide_eq_true_2.
  - intros s tsas s' [Hp _]%MemStore_put_inv.
    unfold MemStore.GetTipSet, MemStore.GetTipSetStateRoot.
    by rewrite Hp, lookup_insert_eq.
  - intros s tsas s' k [Hp _]%MemStore_put_inv.
    unfold MemStore.HasTipSetAndState.
    rewrite !bool_decide_eq_true, Hp, lookup_insert. by case_decide.
  - by intros s tsas s' [_ Hh]%MemStore_put_inv.
  - intros s ts s'. unfold MemStore.SetHead. by intros [= <-].
  - intros s ts s' k. unfold MemStore.SetHead. by intros [= <-].
  - intros s ts s' k. unfold MemStore.SetHead. by intros [= <-].
Qed.

(** ** The theorems at concrete inputs *)

Lemma collectChain_finality_limit_witness :
  collectChain MemStore.reader (Demo.fetcher (Demo.lineNet 600))
    (Demo.consensus ∅ ∅) 600 {[600]} (Demo.syncer0 CaughtUp)
  = Some (Demo.syncer0 CaughtUp, inl ErrNewChainTooLong).
Proof.
  pose (st := default ([], ∅)
    (loopState MemStore.reader (Demo.fetcher (Demo.lineNet 600))
       (Demo.consensus ∅ ∅) 600 {[600]} (Demo.syncer0 CaughtUp))).
  refine (proj2 (proj2 (proj2
    (collectChain_finality_limit MemStore.reader (Demo.fetcher (Demo.lineNet 600))
       (Demo.consensus ∅ ∅) 600 {[600]} (Demo.syncer0 CaughtUp)
       st.1 st.2 600 _ _ _ _)))).
  - compute_done.
  - lia.
  - discriminate.
  - compute_done.
Defined.


Lemma head_always_in_store_witness :
  headInStore MemStore.reader
    (chainStore (Demo.after 10 [3] (Demo.syncer0 Syncing))).
Proof.
  refine (proj2 (proj2 (head_always_in_store MemStore.reader
    (Demo.fetcher Demo.net) Demo.protocol Demo.engine MemStore.util
    MemStore_contract (Demo.syncer0 Syncing) _)) 10 {[3]} _ (Returns (inr tt)) _).
  - compute_done.
  - compute_done.
Defined.

Lemma widen_spec_witness :
  widen MemStore.reader (Demo.tipset [Demo.b2]) Demo.forked
  = inr (Some (Demo.tipset [Demo.b1] ∪ Demo.tipset [Demo.b2])).
Proof.
  destruct (widen_spec MemStore.reader Demo.protocol
    Demo.engine MemStore.util (Demo.tipset [Demo.b2]) {[0]} 1%N Demo.forked)
    as (_ & H & _).
  - compute_done.
  - compute_done.
  - destruct (H [mkTipSetAndState (Demo.tipset [Demo.b1]) 11]) as (_ & H2).
    + compute_done.
    + compute_done.
    + destruct (H2 _ _ eq_refl) as (_ & H3). destruct H3 as (_ & Hw).
      * compute_done.
      * compute_done.
      * rewrite Hw. compute_done.
Defined.

Lemma syncOne_failure_marks_descendants_witness :
  exists final,
    Demo.handle 10 [99] (Demo.syncer0 Syncing)
    = Some (final, Returns (inl (ErrExternal 2)))
    /\ TipSet.ToSortedCidSet (Demo.tipset [Demo.b4]) ∈ badTipSets final.
Proof.
  pose (chain := [Demo.tipset [Demo.b2]; Demo.tipset [Demo.b3];
                  Demo.tipset [Demo.b4]]).
  pose (syncer_i := Demo.after 10 [3] (Demo.syncer0 Syncing)).
  pose (syncer_f := (syncOne MemStore.reader Demo.protocol Demo.engine
    MemStore.util (Demo.tipset [Demo.b3]) (Demo.tipset [Demo.b4]) syncer_i).1).
  destruct (syncOne_failure_marks_descendants MemStore.reader
    (Demo.fetcher Demo.net) Demo.protocol Demo.engine MemStore.util
    MemStore_contract 10 {[99]} (Demo.syncer0 Syncing) chain Demo.genesis
    (Demo.syncer0 Syncing) 2 (Demo.tipset [Demo.b4]) syncer_i syncer_i syncer_f
    (ErrExternal 2)) as (final & Hrun & _ & Hbad & _).
  - split; [compute_done|]. split; [compute_done|].
    exists (Demo.tipset [Demo.b2]), {[0]}.
    split; [reflexivity|]. split; compute_done.
  - reflexivity.
  - compute_done.
  - compute_done.
  - compute_done.
  - exists final. split; [exact Hrun|]. apply (Hbad 2); [lia|reflexivity].
Defined.

Lemma collectChain_invalid_tipset_witness :
  exists syncer',
    collectChain MemStore.reader (Demo.fetcher Demo.net) Demo.protocol 10 {[7]}
      (Demo.syncer0 Syncing) = Some (syncer', inl ErrBadTipSetAdd)
    /\ badTipSets syncer'
       = {[list_to_set [5; 6]]}
         ∪ list_to_set (TipSet.ToSortedCidSet <$> [Demo.tipset [Demo.b7]])
         ∪ badTipSets (Demo.syncer0 Syncing)
    /\ chainStore syncer' = chainStore (Demo.syncer0 Syncing).
Proof.
  destruct (collectChain_invalid_tipset MemStore.reader (Demo.fetcher Demo.net)
    Demo.protocol 1 {[7]} (Demo.syncer0 Syncing) [Demo.tipset [Demo.b7]]
    (list_to_set [5; 6]) [Demo.b6; Demo.b5] ErrBadTipSetAdd 10)
    as (syncer' & Hrun & Hbad & _ & _ & Hstore & _).
  - compute_done.
  - lia.
  - compute_done.
  - compute_done.
  - compute_done.
  - compute_done.
  - compute_done.
  - exists syncer'. split; [exact Hrun|]. split; [exact Hbad|exact Hstore].
Defined.


Lemma syncOne_genesis_head_state_witness :
  headParentState MemStore.reader Demo.engine Demo.genesis
    (validateAndPut MemStore.reader Demo.protocol Demo.engine MemStore.util
       Demo.genesis (Demo.tipset [Demo.b2]) (Demo.syncer0 Syncing)).1
  = inr None.
Proof.
  refine (proj1 (syncOne_genesis_head_state MemStore.reader Demo.protocol
    Demo.engine MemStore.util {[0]} Demo.genesis (Demo.tipset [Demo.b2])
    Demo.genesis ∅ 0 _ _ _ _ _)).
  - compute_done.
  - compute_done.
  - compute_done.
  - compute_done.
Defined.

Lemma collectChain_nonempty_witness :
  Demo.handle 10 [3] (Demo.syncer0 Syncing)
  <> Some (Demo.syncer0 Syncing, PanicIndexOutOfRange).
Proof.
  refine (proj2 (proj1 (collectChain_nonempty MemStore.reader
    (Demo.fetcher Demo.net) Demo.protocol Demo.engine MemStore.util 10
    (list_to_set [3]) (Demo.syncer0 Syncing) _) _) _).
  - compute_done.
  - compute_done.
Defined.

Lemma widened_failure_marks_nothing_witness :
  Demo.handle 10 [3] Demo.forked
  = Some (Demo.after 10 [3] Demo.forked, Returns (inl (ErrExternal 3)))
  /\ badTipSets (Demo.after 10 [3] Demo.forked) = badTipSets Demo.forked.
Proof.
  refine (proj1 (widened_failure_marks_nothing MemStore.reader
    (Demo.fetcher Demo.net) Demo.protocol Demo.engine MemStore.util)
    10 (list_to_set [3]) Demo.forked
    [Demo.tipset [Demo.b2]; Demo.tipset [Demo.b3]] Demo.genesis Demo.forked
    (Demo.tipset [Demo.b2]) (Demo.tipset [Demo.b1] ∪ Demo.tipset [Demo.b2])
    (Demo.after 10 [3] Demo.forked) (ErrExternal 3) _ _ _ _).
  - split; [compute_done|]. split; [compute_done|].
    exists (Demo.tipset [Demo.b2]), {[0]}.
    split; [reflexivity|]. split; compute_done.
  - reflexivity.
  - compute_done.
  - compute_done.
Defined.

(** ** A repeated call that is not a no-op *)


(** ** Further properties of the syncer *)

Section MoreProperties.

#[local] Set Warnings "-clear-no-such-hyp".
#[local] Arguments collectGuard : simpl never.

Context {St Cst Tree : Type}.
Variable store : syncerChainReader St.
Variable fetcher : syncFetcher.
Variable consensus : Protocol Cst Tree.
Variable engine : StateEngine Cst Tree.
Variable util : AncestorUtil St.

Ltac unfold_sync :=
  unfold syncOne, validateAndPut, weighAndPromote, promote, bind, try, ret,
    runStateTransition, flush, putTipSetAndState, setHead in *.
Ltac unfold_syncOne := unfold syncOne.
Ltac unfold_tipSetState := unfold tipSetState.
Ltac unfold_validateAndPut := unfold validateAndPut.
Ltac unfold_widen := unfold widen.
Ltac unfold_widenFirst := unfold widenFirst.
Ltac unfold_HandleNewTipset := unfold HandleNewTipset.
Ltac unfold_collectChain := unfold collectChain.
Ltac unfold_resolveTipSet := unfold resolveTipSet.
Ltac unfold_headInStore := unfold headInStore.
Ltac unfold_isHeavierArgs := unfold isHeavierArgs.
Ltac unfold_weighAndPromote := unfold weighAndPromote.
Ltac unfold_promote := unfold promote.

Local Abbreviation Syncer := (DefaultSyncer St Cst).
Local Abbreviation key := TipSet.ToSortedCidSet.
Local Abbreviation collectLoop := (collectLoop store fetcher consensus).
Local Abbreviation collectChain := (collectChain store fetcher consensus).
Local Abbreviation loopState := (loopState store fetcher consensus).
Local Abbreviation collectEnd := (collectEnd store fetcher consensus).
Local Abbreviation resolveTipSet := (resolveTipSet fetcher consensus).
Local Abbreviation syncOne := (syncOne store consensus engine util).
Local Abbreviation validateAndPut := (validateAndPut store consensus engine util).
Local Abbreviation weighAndPromote := (weighAndPromote store consensus engine util).
Local Abbreviation isHeavierArgs := (isHeavierArgs store engine).
Local Abbreviation tipSetState := (tipSetState store engine).
Local Abbreviation widen := (widen store).
Local Abbreviation widenFirst := (widenFirst store consensus engine util).
Local Abbreviation syncChain := (syncChain store consensus engine util).
Local Abbreviation reachesLoop := (reachesLoop store fetcher consensus).
Local Abbreviation HandleNewTipset :=
  (HandleNewTipset store fetcher consensus engine util).
Local Abbreviation headInStore := (headInStore store).
Local Abbreviation storeExt := (storeExt store).
Local Abbreviation reachable := (reachable store fetcher consensus engine util).

(** *** How collectChain ends *)

Lemma loopState_S n K (syncer : Syncer) chain cursor blks ts parents :
  loopState n K syncer = Some (chain, cursor) ->
  collectGuard syncer chain = true ->
  HasTipSetAndState store (chainStore syncer) cursor = false ->
  badTipSetCache.Has (badTipSets syncer) cursor = false ->
  getBlksMaybeFromNet fetcher (elements cursor) = inr blks ->
  NewValidTipSet consensus blks = inr ts ->
  TipSet.Parents ts = inr parents ->
  loopState (S n) K syncer = Some (ts :: chain, parents).
Proof.
  intros Hn Hg Hhas Hbad Hf Hv Hp. simpl.
  rewrite Hn, Hg, Hhas, Hbad. simpl. rewrite Hf, Hv, Hp. done.
Qed.

Lemma loopState_inv n K (syncer : Syncer) chain cursor :
  loopState (S n) K syncer = Some (chain, cursor) ->
  exists chain0 cursor0 blks ts,
    loopState n K syncer = Some (chain0, cursor0)
    /\ collectGuard syncer chain0 = true
    /\ HasTipSetAndState store (chainStore syncer) cursor0 = false
    /\ badTipSetCache.Has (badTipSets syncer) cursor0 = false
    /\ getBlksMaybeFromNet fetcher (elements cursor0) = inr blks
    /\ NewValidTipSet consensus blks = inr ts
    /\ TipSet.Parents ts = inr cursor
    /\ chain = ts :: chain0.
Proof.
  simpl. destruct (loopState n K syncer) as [[chain0 cursor0]|]; [|discriminate].
  destruct (collectGuard syncer chain0) eqn:Hg; simpl; [|discriminate].
  destruct (HasTipSetAndState store (chainStore syncer) cursor0) eqn:Hhas;
    simpl; [discriminate|].
  destruct (badTipSetCache.Has (badTipSets syncer) cursor0) eqn:Hbad;
    simpl; [discriminate|].
  destruct (getBlksMaybeFromNet fetcher (elements cursor0)) as [e|blks] eqn:Hf;
    [discriminate|].
  destruct (NewValidTipSet consensus blks) as [e|ts] eqn:Hv; [discriminate|].
  destruct (TipSet.Parents ts) as [e|parents] eqn:Hp; [discriminate|].
  intros [= <- <-]. exists chain0, cursor0, blks, ts. auto 10.
Qed.

(** A run of the loop started at a loop state ends at a later loop state in
    one of the six ways. *)
Lemma collectLoop_ends K (syncer : Syncer) fuel :
  forall n0 chain0 cursor0 syncer' r,
  loopState n0 K syncer = Some (chain0, cursor0) ->
  collectLoop fuel chain0 cursor0 syncer = Some (syncer', r) ->
  exists n chain cursor,
    n0 <= n /\ n <= n0 + fuel
    /\ loopState n K syncer = Some (chain, cursor)
    /\ collectEnd syncer chain cursor syncer' r.
Proof.
  induction fuel as [|fuel IH]; intros n0 chain0 cursor0 syncer' r Hn; simpl.
  - destruct (collectGuard syncer chain0) eqn:Hg; [discriminate|].
    intros [= <- <-]. exists n0, chain0, cursor0.
    split; [lia|]. split; [lia|]. split; [done|]. by constructor.
  - destruct (collectGuard syncer chain0) eqn:Hg.
    2:{ intros [= <- <-]. exists n0, chain0, cursor0.
        split; [lia|]. split; [lia|]. split; [done|]. by constructor. }
    destruct (HasTipSetAndState store (chainStore syncer) cursor0) eqn:Hhas.
    { intros [= <- <-]. exists n0, chain0, cursor0.
      split; [lia|]. split; [lia|]. split; [done|]. by constructor. }
    destruct (badTipSetCache.Has (badTipSets syncer) cursor0) eqn:Hbad.
    { intros [= <- <-]. exists n0, chain0, cursor0.
      split; [lia|]. split; [lia|]. split; [done|]. by constructor. }
    destruct (getBlksMaybeFromNet fetcher (elements cursor0)) as [e|blks] eqn:Hf.
    { intros [= <- <-]. exists n0, chain0, cursor0.
      split; [lia|]. split; [lia|]. split; [done|]. by constructor. }
    destruct (NewValidTipSet consensus blks) as [e|ts] eqn:Hv.
    { intros [= <- <-]. exists n0, chain0, cursor0.
      split; [lia|]. split; [lia|]. split; [done|]. by econstructor. }
    destruct (TipSet.Parents ts) as [e|parents] eqn:Hp.
    { intros [= <- <-]. exists n0, chain0, cursor0.
      split; [lia|]. split; [lia|]. split; [done|]. by econstructor. }
    intros Hrun.
    pose proof (loopState_S _ _ _ _ _ _ _ _ Hn Hg Hhas Hbad Hf Hv Hp) as HS.
    destruct (IH _ _ _ _ _ HS Hrun) as (n & chain & cursor & ? & ? & ? & ?).
    exists n, chain, cursor. split; [lia|]. split; [lia|]. done.
Qed.

(** X1.  Every result of collectChain is reached at a loop state of its walk
    by one of the six return statements; the call then leaves the syncer as
    it was, except where NewValidTipSet failed, where it adds the cursor and
    the collected tipsets to the bad-tipset cache and changes nothing
    else. *)
Theorem collectChain_ends fuel K (syncer syncer' : Syncer) r :
  collectChain fuel K syncer = Some (syncer', r) ->
  exists n chain cursor,
    n <= fuel
    /\ loopState n K syncer = Some (chain, cursor)
    /\ collectEnd syncer chain cursor syncer' r
    /\ (syncer' = syncer
        \/ exists blks err,
             getBlksMaybeFromNet fetcher (elements cursor) = inr blks
             /\ NewValidTipSet consensus blks = inl err
             /\ r = inl err
             /\ syncer' = setBadTipSets
                  ({[cursor]} ∪ list_to_set (key <$> chain) ∪ badTipSets syncer)
                  syncer).
Proof.
  intros Hrun.
  destruct (collectLoop_ends K syncer fuel 0 [] K syncer' r eq_refl Hrun)
    as (n & chain & cursor & _ & Hn & Hs & Hend).
  exists n, chain, cursor. split; [lia|]. split; [done|]. split; [done|].
  destruct Hend; try (by left). right. exists blks, err.
  repeat (split; [done|]). f_equal.
  rewrite AddChain_union. unfold badTipSetCache.Add. set_solver.
Qed.

(** X2.  When the walk reaches a key that is not in the store and is in the
    bad-tipset cache, collectChain returns ErrChainHasBadTipSet and leaves
    the syncer, the cache included, as it was. *)
Theorem collectChain_cached_bad n K (syncer : Syncer) chain cursor fuel :
  loopState n K syncer = Some (chain, cursor) ->
  n < fuel ->
  collectGuard syncer chain = true ->
  HasTipSetAndState store (chainStore syncer) cursor = false ->
  cursor ∈ badTipSets syncer ->
  collectChain fuel K syncer = Some (syncer, inl ErrChainHasBadTipSet).
Proof.
  intros Hn Hfuel Hg Hhas Hbad. apply Has_true in Hbad.
  destruct (loopState_collectLoop store fetcher consensus _ _ _ _ _ Hn)
    as [_ Hrun].
  unfold_collectChain. replace fuel with (n + S (fuel - S n)) by lia.
  rewrite Hrun. simpl. rewrite Hg, Hhas, Hbad. done.
Qed.

(** The tipsets collected at a loop state are linked by their parents. *)
Lemma loopState_linked n K (syncer : Syncer) : forall chain cursor,
  loopState n K syncer = Some (chain, cursor) ->
  match chain with
  | [] => cursor = K
  | t :: _ => TipSet.Parents t = inr cursor
  end
  /\ (forall i t t', chain !! i = Some t -> chain !! S i = Some t' ->
        exists p, TipSet.Parents t' = inr p /\ resolveTipSet p = inr t)
  /\ (forall t, last chain = Some t -> resolveTipSet K = inr t).
Proof.
  induction n as [|n IH]; intros chain cursor Hs.
  { injection Hs as <- <-. split; [done|]. split; [|done].
    intros i t t' Hi. by rewrite lookup_nil in Hi. }
  apply loopState_inv in Hs
    as (chain0 & cursor0 & blks & ts & Hn & _ & _ & _ & Hf & Hv & Hp & ->).
  destruct (IH _ _ Hn) as (Hhd & Hlink & Hlast).
  assert (Hres : resolveTipSet cursor0 = inr ts).
  { unfold_resolveTipSet. unfold rbind. by rewrite Hf. }
  split; [done|]. split.
  - intros [|i] t t' Hi Hi'; simpl in Hi, Hi'.
    + injection Hi as <-. destruct chain0 as [|t0 rest]; [done|].
      injection Hi' as <-. eauto.
    + by eapply Hlink.
  - intros t. rewrite last_cons. destruct chain0 as [|t0 rest].
    + simpl. intros [= <-]. by rewrite <- Hhd.
    + destruct (last (t0 :: rest)) eqn:Hl; [|by apply last_None in Hl].
      intros [= <-]. by apply Hlast.
Qed.

(** X3.  A chain returned by collectChain is a path from the store to the
    candidate: the parents of its first tipset have tipset and state in the
    store, each tipset is the one the parents key of the next resolves to,
    and the last is the one the candidate key resolves to; an empty chain is
    returned only for a candidate in the store.  The syncer is as it was. *)
Theorem collectChain_linked fuel K (syncer syncer' : Syncer) chain :
  collectChain fuel K syncer = Some (syncer', inr chain) ->
  syncer' = syncer
  /\ (chain = [] ->
      HasTipSetAndState store (chainStore syncer) K = true)
  /\ (forall t, head chain = Some t ->
        exists p, TipSet.Parents t = inr p
                  /\ HasTipSetAndState store (chainStore syncer) p = true)
  /\ (forall i t t', chain !! i = Some t -> chain !! S i = Some t' ->
        exists p, TipSet.Parents t' = inr p /\ resolveTipSet p = inr t)
  /\ (forall t, last chain = Some t -> resolveTipSet K = inr t).
Proof.
  intros Hrun.
  destruct (collectLoop_ends K syncer fuel 0 [] K syncer' _ eq_refl Hrun)
    as (n & chain' & cursor & _ & _ & Hs & Hend).
  inversion Hend as [|Hg Hhas| | | |]; subst.
  destruct (loopState_linked _ _ _ _ _ Hs) as (Hhd & Hlink & Hlast).
  split; [done|]. split; [by intros ->; subst|]. split; [|done].
  intros t Ht. destruct chain as [|t0 rest]; [done|]. injection Ht as ->.
  eauto.
Qed.

(** Out of Syncing mode the loop ends within the iterations the guard
    allows. *)
Lemma collectLoop_total (syncer : Syncer) fuel : forall chain cursor,
  syncMode syncer <> Syncing ->
  600 <= length chain + fuel ->
  is_Some (collectLoop fuel chain cursor syncer).
Proof.
  induction fuel as [|fuel IH]; intros chain cursor Hmode Hlen; simpl.
  - destruct (collectGuard syncer chain) eqn:Hg; [|done].
    apply collectGuard_spec in Hg as [?|Hg]; [done|].
    unfold FinalityLimit in Hg. lia.
  - destruct (collectGuard syncer chain); [|done].
    destruct (HasTipSetAndState store (chainStore syncer) cursor); [done|].
    destruct (badTipSetCache.Has (badTipSets syncer) cursor); [done|].
    destruct (getBlksMaybeFromNet fetcher (elements cursor)) as [e|blks];
      [done|].
    destruct (NewValidTipSet consensus blks) as [e|ts]; [done|].
    destruct (TipSet.Parents ts) as [e|parents]; [done|].
    apply IH; [done|]. simpl. lia.
Qed.

(** X4.  Out of Syncing mode collectChain ends within FinalityLimit = 600
    iterations of its loop, and so does HandleNewTipset: with fuel for 600
    iterations both return. *)
Theorem collectChain_terminates fuel K (syncer : Syncer) :
  syncMode syncer <> Syncing ->
  600 <= fuel ->
  is_Some (collectChain fuel K syncer)
  /\ is_Some (HandleNewTipset fuel K syncer).
Proof.
  intros Hmode Hfuel.
  assert (Hc : is_Some (collectChain fuel K syncer)).
  { apply collectLoop_total; [done|]. simpl. lia. }
  split; [done|]. unfold_HandleNewTipset.
  destruct (HasAllBlocks store (chainStore syncer) (elements K)); [done|].
  destruct Hc as [[syncer1 [e|chain]] ->]; [done|].
  destruct chain as [|chain0 rest]; [done|].
  destruct (TipSet.Parents chain0); [done|].
  destruct (GetTipSet store (chainStore syncer1) _); [done|].
  by destruct (syncChain _ _ _ _ _).
Qed.

(** X5.  Out of Syncing mode a chain returned by collectChain has fewer
    than FinalityLimit = 600 tipsets. *)
Theorem collectChain_short fuel K (syncer syncer' : Syncer) chain :
  syncMode syncer <> Syncing ->
  collectChain fuel K syncer = Some (syncer', inr chain) ->
  length chain < 600.
Proof.
  intros Hmode Hrun.
  destruct (collectLoop_ends K syncer fuel 0 [] K syncer' _ eq_refl Hrun)
    as (n & chain' & cursor & _ & _ & Hs & Hend).
  inversion Hend as [|Hg Hhas| | | |]; subst.
  apply collectGuard_spec in Hg as [?|Hg]; [done|].
  unfold FinalityLimit in Hg. lia.
Qed.

(** *** What syncOne writes *)

Lemma validateAndPut_inv parent next (syncer syncer1 : Syncer) root :
  validateAndPut parent next syncer = (syncer1, inr root) ->
  exists st h ancestors cst1 st' cst2,
    tipSetState (key parent) syncer = inr st
    /\ TipSet.Height next = inr h
    /\ GetRecentAncestors util (chainStore syncer) parent h = inr ancestors
    /\ RunStateTransition consensus (stateStore syncer) next ancestors st
       = (cst1, inr st')
    /\ Flush engine cst1 st' = (cst2, inr root)
    /\ PutTipSetAndState store (chainStore syncer) (mkTipSetAndState next root)
       = inr (chainStore syncer1).
Proof.
  unfold_validateAndPut.
  unfold bind, try, runStateTransition, flush, putTipSetAndState, ret.
  destruct (tipSetState (key parent) syncer) as [e|st] eqn:Hst; [discriminate|].
  destruct (TipSet.Height next) as [e|h] eqn:Hh; [discriminate|].
  destruct (GetRecentAncestors util (chainStore syncer) parent h)
    as [e|ancestors] eqn:Ha; [discriminate|].
  destruct (RunStateTransition consensus (stateStore syncer) next ancestors st)
    as [cst1 [e|st']] eqn:Hr; [discriminate|]. simpl.
  destruct (Flush engine cst1 st') as [cst2 [e|root']] eqn:Hf; [discriminate|].
  simpl.
  destruct (PutTipSetAndState store (chainStore syncer)
              (mkTipSetAndState next root')) as [e|s1] eqn:Hput; [discriminate|].
  intros [= <- <-]. exists st, h, ancestors, cst1, st', cst2. auto 10.
Qed.

(** X6.  syncOne changes the chain store only for a tipset that
    RunStateTransition accepted on the state of its parent: the store then
    holds the result of PutTipSetAndState on the tipset and the root its new
    state was flushed to, with or without SetHead on the tipset after it. *)
Theorem syncOne_stores_validated parent next (syncer syncer' : Syncer) r :
  syncOne parent next syncer = (syncer', r) ->
  chainStore syncer' <> chainStore syncer ->
  exists st h ancestors cst1 st' cst2 root s1,
    tipSetState (key parent) syncer = inr st
    /\ TipSet.Height next = inr h
    /\ GetRecentAncestors util (chainStore syncer) parent h = inr ancestors
    /\ RunStateTransition consensus (stateStore syncer) next ancestors st
       = (cst1, inr st')
    /\ Flush engine cst1 st' = (cst2, inr root)
    /\ PutTipSetAndState store (chainStore syncer) (mkTipSetAndState next root)
       = inr s1
    /\ (chainStore syncer' = s1
        \/ SetHead store s1 next = inr (chainStore syncer')).
Proof.
  unfold_syncOne. case_bool_decide as Hhead.
  { simpl. by intros [= <- <-]. }
  unfold bind at 1.
  destruct (validateAndPut parent next syncer) as [syncer1 [e|root]] eqn:Hv.
  { apply validateAndPut_store in Hv as (_ & _ & Hs).
    intros [= <- <-]. done. }
  apply validateAndPut_inv in Hv
    as (st & h & ancestors & cst1 & st' & cst2 & ? & ? & ? & ? & ? & Hput).
  intros Hw _. apply weighAndPromote_store in Hw as (_ & _ & _ & Hw).
  exists st, h, ancestors, cst1, st', cst2, root, (chainStore syncer1).
  repeat (split; [done|]). destruct Hw as [?|[? _]]; auto.
Qed.

(** X7.  syncOne changes the head only after IsHeavier answered true on
    [next] and the tipset of the old head: on every run that leaves another
    head, syncOne returned success, the new head is [next], and [next] was
    validated, put in the store and found heavier. *)
Theorem syncOne_promotes_only_heavier (HC : StoreContract store) parent next
    (syncer syncer' : Syncer) r :
  syncOne parent next syncer = (syncer', r) ->
  GetHead store (chainStore syncer') <> GetHead store (chainStore syncer) ->
  r = inr tt
  /\ GetHead store (chainStore syncer') = key next
  /\ exists syncer1 root headTipSet aSt bSt,
       validateAndPut parent next syncer = (syncer1, inr root)
       /\ isHeavierArgs (GetHead store (chainStore syncer)) parent next syncer1
          = inr (next, headTipSet, aSt, bSt)
       /\ GetTipSet store (chainStore syncer1) (GetHead store (chainStore syncer))
          = inr headTipSet
       /\ IsHeavier consensus next headTipSet aSt bSt = inr true.
Proof.
  unfold_syncOne. case_bool_decide as Hhead.
  { simpl. by intros [= <- <-]. }
  unfold bind at 1.
  destruct (validateAndPut parent next syncer) as [syncer1 [e|root]] eqn:Hv.
  { apply validateAndPut_store in Hv as (_ & _ & Hs).
    intros [= <- <-]. by rewrite Hs. }
  pose proof (validateAndPut_store _ _ _ _ _ _ _ _ _ Hv) as (_ & _ & Hput).
  pose proof (put_head store HC _ _ _ Hput) as Hhd.
  unfold_weighAndPromote. unfold bind, try.
  destruct (isHeavierArgs (GetHead store (chainStore syncer)) parent next syncer1)
    as [e|[[[a b] aSt] bSt]] eqn:Hargs.
  { intros [= <- <-]. by rewrite Hhd. }
  assert (Ha : a = next /\
    GetTipSet store (chainStore syncer1) (GetHead store (chainStore syncer)) = inr b).
  { revert Hargs. unfold_isHeavierArgs; unfold rbind.
    repeat case_match; intros; simplify_eq; auto. }
  destruct Ha as [-> Hb].
  destruct (IsHeavier consensus next b aSt bSt) as [e|[|]] eqn:Hheavy.
  - intros [= <- <-]. by rewrite Hhd.
  - unfold_promote. unfold bind, try, setHead.
    destruct (CollectTipSetsOfHeightAtLeast0 util (chainStore syncer1) parent)
      as [e|newChain].
    { intros [= <- <-]. by rewrite Hhd. }
    destruct (SetHead store (chainStore syncer1) next) as [e|s2] eqn:Hset.
    { intros [= <- <-]. by rewrite Hhd. }
    intros [= <- <-] _. simpl. split; [done|].
    split; [apply (sethead_head store HC _ _ _ Hset)|].
    exists syncer1, root, b, aSt, bSt. done.
  - simpl. intros [= <- <-]. by rewrite Hhd.
Qed.

(** X8.  When the parent handed to syncOne has no tipset and state in the
    store, and [next] is not the head, syncOne returns
    ErrUnexpectedStoreState and leaves the syncer as it was. *)
Theorem syncOne_missing_parent parent next (syncer : Syncer) :
  GetHead store (chainStore syncer) <> key next ->
  HasTipSetAndState store (chainStore syncer) (key parent) = false ->
  syncOne parent next syncer = (syncer, inl ErrUnexpectedStoreState).
Proof.
  intros Hhead Hhas. unfold_syncOne. rewrite bool_decide_eq_false_2 by done.
  unfold_validateAndPut. unfold bind, try. unfold_tipSetState.
  rewrite Hhas. done.
Qed.

(** *** What HandleNewTipset keeps *)

Lemma HandleNewTipset_cases fuel K (syncer syncer' : Syncer) c :
  HandleNewTipset fuel K syncer = Some (syncer', c) ->
  (syncer' = syncer /\ c = Returns (inr tt)
   /\ HasAllBlocks store (chainStore syncer) (elements K) = true)
  \/ (HasAllBlocks store (chainStore syncer) (elements K) = false
      /\ ((exists e, collectChain fuel K syncer = Some (syncer', inl e)
                     /\ c = Returns (inl e))
          \/ (syncer' = syncer
              /\ exists chain, collectChain fuel K syncer = Some (syncer, inr chain)
                 /\ (chain = [] /\ c = PanicIndexOutOfRange
                     \/ exists chain0 e,
                          head chain = Some chain0 /\ c = Returns (inl e)
                          /\ (TipSet.Parents chain0 = inl e
                              \/ exists parentCids,
                                   TipSet.Parents chain0 = inr parentCids
                                   /\ GetTipSet store (chainStore syncer)
                                        parentCids = inl e)))
          \/ exists chain parent r,
               reachesLoop fuel K syncer chain parent syncer
               /\ syncChain chain 0 chain parent syncer = (syncer', r)
               /\ c = Returns r)).
Proof.
  unfold_HandleNewTipset.
  destruct (HasAllBlocks store (chainStore syncer) (elements K)) eqn:Hall.
  { intros [= <- <-]. by left. }
  intros Hrun. right. split; [done|]. revert Hrun.
  destruct (collectChain fuel K syncer) as [[syncer1 [e|chain]]|] eqn:Hc;
    [| |done].
  { intros [= <- <-]. left. eauto. }
  pose proof Hc as Hc'.
  apply collectLoop_frame in Hc' as (_ & _ & _ & _ & Heq).
  specialize (Heq _ eq_refl). subst syncer1.
  destruct chain as [|chain0 rest].
  { intros [= <- <-]. right; left. split; [done|]. exists []. auto. }
  destruct (TipSet.Parents chain0) as [e|parentCids] eqn:Hp.
  { intros [= <- <-]. right; left. split; [done|].
    exists (chain0 :: rest). split; [done|]. right. exists chain0, e. auto. }
  destruct (GetTipSet store (chainStore syncer) parentCids) as [e|parent] eqn:Hg.
  { intros [= <- <-]. right; left. split; [done|].
    exists (chain0 :: rest). split; [done|]. right. exists chain0, e.
    split; [done|]. split; [done|]. right. eauto. }
  destruct (syncChain _ _ _ _ _) as [syncer2 r] eqn:Hrun.
  intros [= <- <-]. right; right. exists (chain0 :: rest), parent, r.
  split; [|done]. split; [done|]. split; [done|]. exists chain0, parentCids. done.
Qed.

(** X9.  A call of HandleNewTipset, however it ends, only adds keys to the
    bad-tipset cache, leaves the sync mode as it is, and on a store meeting
    the contract of its writers removes no tipset from the store. *)
Theorem HandleNewTipset_frame fuel K (syncer syncer' : Syncer) c :
  HandleNewTipset fuel K syncer = Some (syncer', c) ->
  badTipSets syncer ⊆ badTipSets syncer'
  /\ syncMode syncer' = syncMode syncer
  /\ (StoreContract store ->
      forall k, HasTipSetAndState store (chainStore syncer) k = true ->
                HasTipSetAndState store (chainStore syncer') k = true).
Proof.
  intros Hrun.
  apply HandleNewTipset_cases in Hrun
    as [(-> & _ & _)|(_ & [(e & Hc & _)|[(-> & _)|(chain & parent & r & _ & Hrun & _)]])].
  - done.
  - apply collectLoop_frame in Hc as (Hs & _ & Hm & Hb & _).
    split; [done|]. split; [done|]. intros _ k. by rewrite Hs.
  - done.
  - apply syncChain_frame in Hrun as (Hb & _ & Hm & Hext).
    split; [done|]. split; [done|]. intros HC k. by apply (Hext HC).
Qed.

(** X10.  When HandleNewTipset goes through its loop and returns success on
    a store meeting the contract whose head is in it, every tipset of the
    collected chain has tipset and state in the store afterwards, and the
    bad-tipset cache is as it was. *)
Theorem HandleNewTipset_success_stores_chain (HC : StoreContract store)
    fuel K (syncer syncer' : Syncer) chain parent syncer1 :
  reachesLoop fuel K syncer chain parent syncer1 ->
  headInStore (chainStore syncer) ->
  HandleNewTipset fuel K syncer = Some (syncer', Returns (inr tt)) ->
  (forall ts, ts ∈ chain ->
     HasTipSetAndState store (chainStore syncer') (key ts) = true)
  /\ badTipSets syncer' = badTipSets syncer.
Proof.
  intros Hreach Hhead Hrun.
  pose proof (reachesLoop_run store fetcher consensus engine util
                _ _ _ _ _ _ Hreach) as [-> Hrun'].
  rewrite Hrun' in Hrun.
  destruct (syncChain chain 0 chain parent syncer) as [syncer2 r] eqn:Hloop.
  simplify_eq/=. split.
  - by eapply (syncChain_success_stored store consensus engine util HC).
  - apply syncChain_frame in Hloop as (_ & Hb & _). by apply Hb.
Qed.

Lemma syncOne_head (HC : StoreContract store) parent next
    (syncer syncer' : Syncer) r :
  syncOne parent next syncer = (syncer', r) ->
  GetHead store (chainStore syncer') = GetHead store (chainStore syncer)
  \/ GetHead store (chainStore syncer') = key next.
Proof.
  intros H. apply syncOne_store in H as (_ & _ & [->|(root & s1 & Hput & Hs)]).
  { by left. }
  pose proof (put_head store HC _ _ _ Hput) as Hhd.
  destruct Hs as [->|[Hset _]]; [by left|]. right.
  apply (sethead_head store HC _ _ _ Hset).
Qed.

Lemma syncChain_head (HC : StoreContract store) chain rest :
  forall i parent (syncer syncer' : Syncer) r,
  syncChain chain i rest parent syncer = (syncer', r) ->
  GetHead store (chainStore syncer') = GetHead store (chainStore syncer)
  \/ (exists t, t ∈ rest /\ GetHead store (chainStore syncer') = key t)
  \/ (i = 0 /\ exists t0 wts,
        head rest = Some t0 /\ widen t0 syncer = inr (Some wts)
        /\ GetHead store (chainStore syncer') = key wts).
Proof.
  induction rest as [|ts rest IH]; intros i parent syncer syncer' r.
  { simpl. intros [= <- <-]. by left. }
  rewrite syncChain_cons.
  assert (Hw : forall syncer1 r1,
    widenFirst i parent ts syncer = (syncer1, r1) ->
    GetHead store (chainStore syncer1) = GetHead store (chainStore syncer)
    \/ (i = 0 /\ exists wts, widen ts syncer = inr (Some wts)
          /\ GetHead store (chainStore syncer1) = key wts)).
  { intros syncer1 r1. unfold_widenFirst. destruct i as [|i]; simpl.
    - unfold bind, try. destruct (widen ts syncer) as [e|[wts|]] eqn:Hwd.
      + intros [= <- <-]. by left.
      + intros H. apply (syncOne_head HC) in H as [?|?]; [by left|].
        right. eauto.
      + intros [= <- <-]. by left.
    - intros [= <- <-]. by left. }
  destruct (widenFirst i parent ts syncer) as [syncer1 [e|u]] eqn:Hwf.
  { intros [= <- <-]. destruct (Hw _ _ eq_refl) as [?|(-> & wts & ? & ?)];
      [by left|]. right; right. split; [done|]. exists ts, wts. done. }
  assert (Hfinal : forall syncer2 : Syncer,
    GetHead store (chainStore syncer2) = GetHead store (chainStore syncer1)
    \/ (exists t, t ∈ ts :: rest /\ GetHead store (chainStore syncer2) = key t) ->
    GetHead store (chainStore syncer2) = GetHead store (chainStore syncer)
    \/ (exists t, t ∈ ts :: rest /\ GetHead store (chainStore syncer2) = key t)
    \/ (i = 0 /\ exists t0 wts,
          head (ts :: rest) = Some t0 /\ widen t0 syncer = inr (Some wts)
          /\ GetHead store (chainStore syncer2) = key wts)).
  { intros syncer2 [H2|H2]; [|by right; left].
    destruct (Hw _ _ eq_refl) as [H1|(-> & wts & ? & H1)].
    - left. congruence.
    - right; right. split; [done|]. exists ts, wts.
      split; [done|]. split; [done|]. congruence. }
  destruct (syncOne parent ts syncer1) as [syncer2 [e|u']] eqn:Ho;
    pose proof (syncOne_head HC _ _ _ _ _ Ho) as Hh2.
  - intros [= <- <-]. simpl. apply Hfinal.
    destruct Hh2 as [?|?]; [by left|]. right. exists ts. split; [left|done].
  - intros H. apply IH in H as [H|[(t & Ht & H)|(Hi & _)]]; [| |lia].
    + apply Hfinal. destruct Hh2 as [?|?]; [left; congruence|].
      right. exists ts. split; [left|congruence].
    + apply Hfinal. right. exists t. split; [by right|done].
Qed.

(** X11.  On a store meeting the contract, a call of HandleNewTipset that
    leaves another head leaves as head a tipset of the chain it collected or
    the widening of the first tipset of that chain. *)
Theorem HandleNewTipset_head_from_chain (HC : StoreContract store)
    fuel K (syncer syncer' : Syncer) c :
  HandleNewTipset fuel K syncer = Some (syncer', c) ->
  GetHead store (chainStore syncer') <> GetHead store (chainStore syncer) ->
  exists chain,
    collectChain fuel K syncer = Some (syncer, inr chain)
    /\ ((exists t, t ∈ chain /\ GetHead store (chainStore syncer') = key t)
        \/ exists t0 wts,
             head chain = Some t0 /\ widen t0 syncer = inr (Some wts)
             /\ GetHead store (chainStore syncer') = key wts).
Proof.
  intros Hrun Hne.
  apply HandleNewTipset_cases in Hrun
    as [(-> & _ & _)|(_ & [(e & Hc & _)|[(-> & _)|(chain & parent & r & Hreach & Hrun & _)]])];
    [done| |done|].
  { apply collectLoop_frame in Hc as (Hs & _). by rewrite Hs in Hne. }
  exists chain. split; [by destruct Hreach as (_ & ? & _)|].
  apply (syncChain_head HC) in Hrun as [?|[?|(_ & ?)]]; [done|by left|by right].
Qed.

(** X12.  The parent handed to syncOne by the loop of HandleNewTipset is in
    the store, as the comment in syncOne says: on a store meeting the
    contract, whose head is in it and which returns under a key a tipset of
    that key, whenever the iterations before index [i] succeeded the parent
    of iteration [i] has tipset and state in the store, before and after
    the widening of that iteration. *)
Theorem HandleNewTipset_parent_in_store (HC : StoreContract store)
    fuel K (syncer : Syncer) chain parent0 syncer1 i ts syncer_i syncer_w rw :
  reachesLoop fuel K syncer chain parent0 syncer1 ->
  headInStore (chainStore syncer) ->
  (forall k t, GetTipSet store (chainStore syncer) k = inr t -> key t = k) ->
  chain !! i = Some ts ->
  syncChain chain 0 (take i chain) parent0 syncer1 = (syncer_i, inr tt) ->
  widenFirst i (parentAt chain parent0 i) ts syncer_i = (syncer_w, rw) ->
  HasTipSetAndState store (chainStore syncer_i) (key (parentAt chain parent0 i))
  = true
  /\ HasTipSetAndState store (chainStore syncer_w) (key (parentAt chain parent0 i))
     = true.
Proof.
  intros Hreach Hhead Hkey Hi Hpre Hw.
  assert (H1 : HasTipSetAndState store (chainStore syncer_i)
                 (key (parentAt chain parent0 i)) = true).
  { destruct Hreach as (_ & Hc & chain0 & parentCids & Hhd & Hpar & Hget).
    pose proof Hc as Hc'.
    apply collectLoop_frame in Hc' as (_ & _ & _ & _ & Heq).
    specialize (Heq _ eq_refl). subst syncer1.
    destruct i as [|j].
    - simpl in Hpre. injection Hpre as <-. simpl.
      rewrite (Hkey _ _ Hget).
      destruct (collectLoop_ends K syncer fuel 0 [] K syncer _ eq_refl Hc)
        as (n & chain' & cursor & _ & _ & Hs & Hend).
      inversion Hend as [|Hg Hhas| | | |]; subst.
      apply loopState_linked in Hs as (Hl & _).
      destruct chain as [|t rest]; [done|]. injection Hhd as ->.
      rewrite Hpar in Hl. by injection Hl as ->.
    - simpl. assert (is_Some (chain !! j)) as [x Hx].
      { apply lookup_lt_is_Some. apply lookup_lt_Some in Hi. lia. }
      rewrite Hx. simpl.
      eapply (syncChain_success_stored store consensus engine util HC);
        [exact Hhead|exact Hpre|].
      apply elem_of_take. exists j. split; [done|lia]. }
  split; [done|].
  apply widenFirst_frame in Hw as (_ & _ & Hext). by apply (Hext HC).
Qed.

(** *** What widen returns *)

Lemma wellFormed_union (m ts : TipSet) parents h :
  wellFormed m parents h -> wellFormed ts parents h ->
  wellFormed (m ∪ ts) parents h.
Proof.
  intros Hm Hts c b Hcb. apply lookup_union_Some_raw in Hcb as [?|[_ ?]].
  - by apply Hm.
  - by apply Hts.
Qed.

(** X13.  A tipset returned by widen strictly contains the input tipset, is
    bigger than every stored candidate, is made of blocks of the input and of
    a stored candidate only, and is well formed with the parents and height
    of the input, the input and the candidates being well formed. *)
Theorem widen_strictly_bigger ts parents h (syncer : Syncer) candidates wts :
  wellFormed ts parents h ->
  ts <> ∅ ->
  GetTipSetAndStatesByParentsAndHeight store (chainStore syncer) parents h
  = inr candidates ->
  (forall c, c ∈ candidates -> wellFormed (tsasTipSet c) parents h) ->
  widen ts syncer = inr (Some wts) ->
  key ts ⊂ key wts
  /\ TipSet.len ts < TipSet.len wts
  /\ (forall c, c ∈ candidates ->
        TipSet.len (tsasTipSet c) < TipSet.len wts)
  /\ (exists max, max ∈ candidates /\ wts = tsasTipSet max ∪ ts)
  /\ wellFormed wts parents h.
Proof.
  intros Hts Hne Hget Hcands.
  destruct (wellFormed_Parents_Height _ _ _ Hts Hne) as [Hpar Hh].
  unfold_widen. unfold rbind. rewrite Hpar, Hh.
  destruct (HasTipSetAndStatesWithParentsAndHeight store (chainStore syncer)
              parents h); simpl; [|discriminate].
  rewrite Hget. destruct candidates as [|c0 cs]; [discriminate|].
  set (max := biggest c0 (c0 :: cs)).
  destruct (biggest_firstBiggest c0 cs) as (i & Hi & Hle & _). fold max in Hi, Hle.
  assert (Hin : max ∈ c0 :: cs) by (apply list_elem_of_lookup; eauto).
  pose proof (Hcands _ Hin) as Hmax.
  rewrite (addBlocks_union _ _ _ _ Hts Hmax).
  case_bool_decide as H1; simpl; [discriminate|].
  case_bool_decide as H2; simpl; [discriminate|].
  intros [= <-]. unfold TipSet.ToSortedCidSet in *.
  rewrite dom_union_L in H1, H2.
  assert (Hsub1 : dom ts ⊂ dom (tsasTipSet max ∪ ts)).
  { rewrite dom_union_L. set_solver. }
  assert (Hsub2 : dom (tsasTipSet max) ⊂ dom (tsasTipSet max ∪ ts)).
  { rewrite dom_union_L. set_solver. }
  apply subset_size in Hsub1 as Hs1. apply subset_size in Hsub2 as Hs2.
  unfold TipSet.len. rewrite !size_dom in Hs1, Hs2.
  split; [done|]. split; [done|]. split; [|split].
  - intros c Hc. apply list_elem_of_lookup in Hc as [j Hj].
    specialize (Hle _ _ Hj). unfold TipSet.len in Hle. lia.
  - by exists max.
  - by apply wellFormed_union.
Qed.

(** *** The sync mode *)

(** X14.  A syncer made by NewDefaultSyncer is in Syncing mode and stays so
    through every call of HandleNewTipset, so the guard of the loop of
    collectChain holds for every chain and the finality limit is never
    applied; its bad-tipset cache starts empty. *)
Theorem reachable_syncing cst s (syncer : Syncer) :
  reachable cst s syncer ->
  syncMode syncer = Syncing
  /\ (forall chain, collectGuard syncer chain = true)
  /\ badTipSets (NewDefaultSyncer (St:=St) cst s) = ∅.
Proof.
  intros Hreach.
  assert (Hmode : syncMode syncer = Syncing).
  { induction Hreach as [|fuel K syncer syncer' c _ IH Hrun]; [done|].
    apply HandleNewTipset_cases in Hrun
      as [(-> & _ & _)|(_ & [(e & Hc & _)|[(-> & _)|(chain & parent & r & _ & Hrun & _)]])];
      [done| |done|].
    - apply collectLoop_frame in Hc as (_ & _ & Hm & _). congruence.
    - apply syncChain_frame in Hrun as (_ & _ & Hm & _). congruence. }
  split; [done|]. split; [|done].
  intros chain. apply collectGuard_spec. by left.
Qed.

End MoreProperties.

(** ** Properties of node initialisation *)

Section NodeProperties.

Import String.

Context {R World Handle PrivKey Address Rest Backend : Type}.
Context `{EqDecision Address}.
Variable r : Node.Repo R World Handle Address Rest.
Variable libs : Node.Libs World Handle PrivKey Address Backend.
Variable zeroAddress : Address.

Ltac unfold_Init :=
  unfold Node.Init, Node.initDefaultAddress, Node.newAddress,
    Node.makePrivateKey in *.

Local Abbreviation Init := (Node.Init r libs zeroAddress).
Local Abbreviation state := (Node.state R World Address Rest).

(** X15.  The only failure of Init in creating the private key of the node
    is a failure of the key generator on 2048 bits: Init asks makePrivateKey
    for 2048 bits, above its floor of 1024, so the error wrapped as "failed
    to create nodes private key" is the one GenerateKeyPair returned, and it
    arises only when the options gave no key. *)
Theorem Init_key_creation_error opts (st st' : state) e :
  Init opts st
  = (st', Node.Return (inl (Node.Wrap e "failed to create nodes private key"%string))) ->
  Node.PeerKey (Node.applyOpts opts) = None
  /\ Node.GenerateKeyPair libs 2048 = inl e
  /\ Node.makePrivateKey libs 2048 = inl e
  /\ Node.repo st' = Node.repo st /\ Node.heap st' = Node.heap st.
Proof.
  unfold_Init. intros Hrun.
  rewrite bool_decide_eq_false_2 in * by lia.
  repeat case_match; simplify_eq/=; done.
Qed.

(** X16.  The key given by the last PrivKeyOpt is the peer key, and when the
    options leave a key Init generates none: its result is the same
    whatever the key generator is. *)
Theorem Init_uses_given_key opts k gen (st : state) :
  Node.applyOpts (opts ++ [Node.PrivKeyOpt (Some k)]) = Node.mkInitCfg (Some k)
  /\ (Node.PeerKey (Node.applyOpts opts) = Some k ->
      Node.Init r
        {| Node.GenerateKeyPair := gen;
           Node.Genesis := Node.Genesis libs;
           Node.KeystorePut := Node.KeystorePut libs;
           Node.NewDSBackend := Node.NewDSBackend libs;
           Node.NewAddress := Node.NewAddress libs |}
        zeroAddress opts st
      = Init opts st).
Proof.
  split.
  - unfold Node.applyOpts. by rewrite foldl_app.
  - intros Hk. unfold_Init. simpl. rewrite Hk. done.
Qed.

(** X17.  Init never returns a bare error: every error it returns is wrapped
    with one of its five messages. *)
Theorem Init_errors_wrapped opts (st st' : state) e :
  Init opts st = (st', Node.Return (inl e)) ->
  exists cause msg, e = Node.Wrap cause msg /\ msg ∈ Node.initMessages.
Proof.
  unfold_Init. unfold Node.initMessages. intros Hrun.
  repeat case_match; simplify_eq/=; eexists _, _; (split; [done|]);
    set_solver.
Qed.


End NodeProperties.

(** ** Properties of the in-memory repo *)

Section MemRepoProperties.

Import String.

Context {World Handle PrivKey Address Rest Backend : Type}.
Context `{EqDecision Address}.
Variable libs : Node.Libs World Handle PrivKey Address Backend.
Variable zeroAddress : Address.

(** X19.  Init on a MemRepo leaves every field of the repo as it was, the
    pointer to its configuration included, never fails with "failed to
    update config", touches no configuration object but the one of the
    repo, and changes in that one at most the default address, and only
    when it was the zero address. *)
Theorem Init_on_MemRepo opts
    (st st' : Node.state (MemRepo.t Handle) World Address Rest) o :
  Node.Init MemRepo.asRepo libs zeroAddress opts st = (st', o) ->
  Node.repo st' = Node.repo st
  /\ (forall cause,
        o <> Node.Return (inl (Node.Wrap cause "failed to update config"%string)))
  /\ (forall q, q <> MemRepo.C (Node.repo st) ->
        Node.heap st' !! q = Node.heap st !! q)
  /\ (forall c, Node.heap st !! MemRepo.C (Node.repo st) = Some c ->
        exists a,
          Node.heap st' !! MemRepo.C (Node.repo st)
          = Some (mkConfig a (configRest c))
          /\ (WalletDefaultAddress c <> zeroAddress ->
              a = WalletDefaultAddress c))
  /\ (o = Node.PanicNilConfig ->
      Node.heap st !! MemRepo.C (Node.repo st) = None).
Proof.
  unfold Node.Init, Node.initDefaultAddress, Node.newAddress,
    Node.makePrivateKey.
  destruct st as [[Cp Dh Kh Wh v] hp w]. simpl. intros Hrun.
  repeat case_match; simplify_eq/=;
    (split; [done|]); (split; [done|]); (split; [|split]);
    try (intros q Hq; by rewrite ?lookup_insert_ne);
    try (intros c' Hc'; simplify_eq;
         rewrite ?lookup_insert_eq; destruct c'; eexists; split;
           [done|intros; try done]);
    try done;
    exfalso;
    repeat match goal with
           | Hb : bool_decide _ = true |- _ => apply bool_decide_eq_true in Hb
           end;
    simpl in *; congruence.
Qed.

End MemRepoProperties.

(** ** The further theorems at concrete inputs *)

Lemma collectChain_ends_witness :
  exists n chain cursor,
    n <= 10
    /\ loopState MemStore.reader (Demo.fetcher Demo.net) Demo.protocol n {[7]}
         (Demo.syncer0 Syncing) = Some (chain, cursor).
Proof.
  destruct (collectChain MemStore.reader (Demo.fetcher Demo.net) Demo.protocol
    10 {[7]} (Demo.syncer0 Syncing)) as [[syncer' r]|] eqn:Hrun.
  - destruct (collectChain_ends MemStore.reader (Demo.fetcher Demo.net)
      Demo.protocol 10 {[7]} (Demo.syncer0 Syncing) syncer' r Hrun)
      as (n & chain & cursor & Hn & Hs & _).
    exists n, chain, cursor. split; [exact Hn|exact Hs].
  - exfalso. revert Hrun. compute_done.
Defined.

Lemma collectChain_cached_bad_witness :
  collectChain MemStore.reader (Demo.fetcher Demo.net) Demo.protocol 10 {[99]}
    (Demo.after 10 [99] (Demo.syncer0 Syncing))
  = Some (Demo.after 10 [99] (Demo.syncer0 Syncing), inl ErrChainHasBadTipSet).
Proof.
  apply (collectChain_cached_bad MemStore.reader (Demo.fetcher Demo.net)
    Demo.protocol 0 {[99]} (Demo.after 10 [99] (Demo.syncer0 Syncing))
    [] {[99]} 10).
  - reflexivity.
  - lia.
  - compute_done.
  - compute_done.
  - compute_done.
Defined.

Lemma collectChain_linked_witness :
  resolveTipSet (Demo.fetcher Demo.net) Demo.protocol {[3]}
  = inr (Demo.tipset [Demo.b3]).
Proof.
  refine (proj2 (proj2 (proj2 (proj2
    (collectChain_linked MemStore.reader (Demo.fetcher Demo.net) Demo.protocol
       10 {[3]} (Demo.syncer0 Syncing) (Demo.syncer0 Syncing)
       [Demo.tipset [Demo.b2]; Demo.tipset [Demo.b3]] _)))) _ _).
  - compute_done.
  - reflexivity.
Defined.

Lemma collectChain_terminates_witness :
  is_Some (Demo.handle 600 [3] (Demo.syncer0 CaughtUp)).
Proof.
  refine (proj2 (collectChain_terminates MemStore.reader (Demo.fetcher Demo.net)
    Demo.protocol Demo.engine MemStore.util 600 (list_to_set [3])
    (Demo.syncer0 CaughtUp) _ _)).
  - discriminate.
  - lia.
Defined.

Lemma collectChain_short_witness :
  length [Demo.tipset [Demo.b2]; Demo.tipset [Demo.b3]] < 600.
Proof.
  apply (collectChain_short MemStore.reader (Demo.fetcher Demo.net)
    Demo.protocol 10 {[3]} (Demo.syncer0 CaughtUp) (Demo.syncer0 CaughtUp)).
  - discriminate.
  - compute_done.
Defined.

Lemma syncOne_stores_validated_witness :
  exists root s1,
    PutTipSetAndState MemStore.reader (chainStore (Demo.syncer0 Syncing))
      (mkTipSetAndState (Demo.tipset [Demo.b2]) root) = inr s1.
Proof.
  destruct (syncOne_stores_validated MemStore.reader Demo.protocol Demo.engine
    MemStore.util Demo.genesis (Demo.tipset [Demo.b2]) (Demo.syncer0 Syncing)
    _ _ (surjective_pairing _))
    as (st & h & ancestors & cst1 & st' & cst2 & root & s1 & _ & _ & _ & _ & _
        & Hput & _).
  - compute_done.
  - exists root, s1. exact Hput.
Defined.

Lemma syncOne_promotes_only_heavier_witness :
  GetHead MemStore.reader
    (chainStore (syncOne MemStore.reader Demo.protocol Demo.engine MemStore.util
       Demo.genesis (Demo.tipset [Demo.b2]) (Demo.syncer0 Syncing)).1)
  = TipSet.ToSortedCidSet (Demo.tipset [Demo.b2]).
Proof.
  refine (proj1 (proj2 (syncOne_promotes_only_heavier MemStore.reader
    Demo.protocol Demo.engine MemStore.util MemStore_contract Demo.genesis
    (Demo.tipset [Demo.b2]) (Demo.syncer0 Syncing) _ _
    (surjective_pairing _) _))).
  compute_done.
Defined.

Lemma syncOne_missing_parent_witness :
  syncOne MemStore.reader Demo.protocol Demo.engine MemStore.util
    (Demo.tipset [Demo.b3]) (Demo.tipset [Demo.b4]) (Demo.syncer0 Syncing)
  = (Demo.syncer0 Syncing, inl ErrUnexpectedStoreState).
Proof.
  apply syncOne_missing_parent.
  - compute_done.
  - compute_done.
Defined.

Lemma HandleNewTipset_frame_witness :
  badTipSets (Demo.syncer0 Syncing)
  ⊆ badTipSets (Demo.after 10 [99] (Demo.syncer0 Syncing)).
Proof.
  refine (proj1 (HandleNewTipset_frame MemStore.reader (Demo.fetcher Demo.net)
    Demo.protocol Demo.engine MemStore.util 10 (list_to_set [99])
    (Demo.syncer0 Syncing) _ (Returns (inl (ErrExternal 2))) _)).
  compute_done.
Defined.

Lemma HandleNewTipset_success_stores_chain_witness :
  HasTipSetAndState MemStore.reader
    (chainStore (Demo.after 10 [3] (Demo.syncer0 Syncing)))
    (TipSet.ToSortedCidSet (Demo.tipset [Demo.b3])) = true.
Proof.
  refine (proj1 (HandleNewTipset_success_stores_chain MemStore.reader
    (Demo.fetcher Demo.net) Demo.protocol Demo.engine MemStore.util
    MemStore_contract 10 (list_to_set [3]) (Demo.syncer0 Syncing)
    (Demo.after 10 [3] (Demo.syncer0 Syncing))
    [Demo.tipset [Demo.b2]; Demo.tipset [Demo.b3]] Demo.genesis
    (Demo.syncer0 Syncing) _ _ _) _ _).
  - split; [compute_done|]. split; [compute_done|].
    exists (Demo.tipset [Demo.b2]), {[0]}.
    split; [reflexivity|]. split; compute_done.
  - compute_done.
  - compute_done.
  - apply list_elem_of_In. right. left. reflexivity.
Defined.

Lemma HandleNewTipset_head_from_chain_witness :
  exists chain,
    collectChain MemStore.reader (Demo.fetcher Demo.net) Demo.protocol 10
      (list_to_set [3]) (Demo.syncer0 Syncing)
    = Some (Demo.syncer0 Syncing, inr chain).
Proof.
  destruct (HandleNewTipset_head_from_chain MemStore.reader
    (Demo.fetcher Demo.net) Demo.protocol Demo.engine MemStore.util
    MemStore_contract 10 (list_to_set [3]) (Demo.syncer0 Syncing)
    (Demo.after 10 [3] (Demo.syncer0 Syncing)) (Returns (inr tt)))
    as (chain & Hc & _).
  - compute_done.
  - compute_done.
  - exists chain. exact Hc.
Defined.

Lemma HandleNewTipset_parent_in_store_witness :
  HasTipSetAndState MemStore.reader
    (chainStore (syncChain MemStore.reader Demo.protocol Demo.engine
       MemStore.util [Demo.tipset [Demo.b2]; Demo.tipset [Demo.b3]] 0
       [Demo.tipset [Demo.b2]] Demo.genesis (Demo.syncer0 Syncing)).1)
    (TipSet.ToSortedCidSet (Demo.tipset [Demo.b2])) = true.
Proof.
  refine (proj1 (HandleNewTipset_parent_in_store MemStore.reader
    (Demo.fetcher Demo.net) Demo.protocol Demo.engine MemStore.util
    MemStore_contract 10 (list_to_set [3]) (Demo.syncer0 Syncing)
    [Demo.tipset [Demo.b2]; Demo.tipset [Demo.b3]] Demo.genesis
    (Demo.syncer0 Syncing) 1 (Demo.tipset [Demo.b3]) _ _ (inr tt)
    _ _ _ _ _ _)).
  - split; [compute_done|]. split; [compute_done|].
    exists (Demo.tipset [Demo.b2]), {[0]}.
    split; [reflexivity|]. split; compute_done.
  - compute_done.
  - intros k t. simpl. unfold MemStore.GetTipSet. simpl.
    destruct (({[dom Demo.genesis := mkTipSetAndState Demo.genesis 0]}
               : gmap SortedCidSet TipSetAndState) !! k) as [tsas|] eqn:E;
      [|discriminate].
    apply lookup_singleton_Some in E as [<- <-]. intros [= <-]. reflexivity.
  - reflexivity.
  - compute_done.
  - reflexivity.
Defined.

Lemma widen_strictly_bigger_witness :
  TipSet.len (Demo.tipset [Demo.b2])
  < TipSet.len (Demo.tipset [Demo.b1] ∪ Demo.tipset [Demo.b2]).
Proof.
  refine (proj1 (proj2 (widen_strictly_bigger MemStore.reader
    (Demo.tipset [Demo.b2]) {[0]} 1%N Demo.forked
    [mkTipSetAndState (Demo.tipset [Demo.b1]) 11]
    (Demo.tipset [Demo.b1] ∪ Demo.tipset [Demo.b2]) _ _ _ _ _))).
  - compute_done.
  - compute_done.
  - compute_done.
  - intros c Hc. apply list_elem_of_singleton in Hc as ->. compute_done.
  - compute_done.
Defined.

Lemma reachable_syncing_witness :
  syncMode (Demo.after 10 [3] (Demo.syncer0 Syncing)) = Syncing.
Proof.
  refine (proj1 (reachable_syncing MemStore.reader (Demo.fetcher Demo.net)
    Demo.protocol Demo.engine MemStore.util {[0]} Demo.genesisStore _ _)).
  apply (reachCall MemStore.reader (Demo.fetcher Demo.net) Demo.protocol
    Demo.engine MemStore.util {[0]} Demo.genesisStore 10 (list_to_set [3])
    (Demo.syncer0 Syncing) _ (Returns (inr tt))).
  - apply reachNew.
  - compute_done.
Defined.

Section NodeWitnesses.
Import String.

Lemma Init_key_creation_error_witness :
  Node.GenerateKeyPair (NodeDemo.libs true) 2048 = inl (Node.ErrLib 1).
Proof.
  refine (proj1 (proj2 (Init_key_creation_error NodeDemo.repo
    (NodeDemo.libs true) 0 [] (NodeDemo.state0 0) _ (Node.ErrLib 1) _))).
  apply surjective_pairing.
Defined.

Lemma Init_uses_given_key_witness :
  Node.Init NodeDemo.repo (NodeDemo.libs true) 0
    [Node.PrivKeyOpt (Some 5%Z)] (NodeDemo.state0 0)
  = Node.Init NodeDemo.repo (NodeDemo.libs false) 0
      [Node.PrivKeyOpt (Some 5%Z)] (NodeDemo.state0 0).
Proof.
  refine (proj2 (Init_uses_given_key NodeDemo.repo (NodeDemo.libs false) 0
    [Node.PrivKeyOpt (Some 5%Z)] 5%Z
    (Node.GenerateKeyPair (NodeDemo.libs true)) (NodeDemo.state0 0)) _).
  reflexivity.
Defined.

Lemma Init_errors_wrapped_witness :
  exists cause msg,
    Node.Wrap (Node.ErrLib 1) "failed to create nodes private key"%string
    = Node.Wrap cause msg /\ msg ∈ Node.initMessages.
Proof.
  apply (Init_errors_wrapped NodeDemo.repo (NodeDemo.libs true) 0 []
    (NodeDemo.state0 0)
    (Node.Init NodeDemo.repo (NodeDemo.libs true) 0 [] (NodeDemo.state0 0)).1).
  apply surjective_pairing.
Defined.


Lemma Init_on_MemRepo_witness :
  Node.repo (Node.Init MemRepo.asRepo (NodeDemo.libs false) 0 []
               (NodeDemo.state0 0)).1
  = NodeDemo.memRepo.
Proof.
  refine (proj1 (Init_on_MemRepo (NodeDemo.libs false) 0 []
    (NodeDemo.state0 0) _ _ (surjective_pairing _))).
Defined.

End NodeWitnesses.
